(** * Multi-track audio editor: the state handlers of [App.tsx]

    A shallow embedding of the component [App] of [src/App.tsx]: the React
    state ([tracks]), the [wavesurferRefs] object, the Tone.js nodes every
    track owns, and the event handlers and effects that act on them.

    Conventions of the embedding.
    - A handler is a function [World -> World].  React renders between two
      events, so the [tracks] a handler closes over and the [prevTracks] its
      [setTracks] updater receives are the same list, [tracks w].
    - Tone.js and WaveSurfer objects are mutable and shared by reference: an
      object spread [{...track, muted: b}] copies the references, so the
      nodes live in heaps of the world and a track holds their locations.
    - A JavaScript [number] is an IEEE double.  The handlers only store and
      copy numbers, they never compute with them, so a number is modelled as
      a rational (every finite double is one). *)

From Stdlib Require Import QArith Ascii String Decimal DecimalFacts DecimalString DecimalNat DecimalZ.
From stdpp Require Import gmap strings list.

Local Open Scope string_scope.
Local Open Scope list_scope.

(** ** Data model *)

(** A JavaScript number, and a reference to a heap-allocated object. *)
Abbreviation number := Q (only parsing).
Abbreviation loc := nat (only parsing).

(** A [File] of the upload input: its name and its bytes.  A [File] is a
    [Blob], and the track keeps it in its [blob] field. *)
Record File := mkFile {
  file_name : string;
  file_bytes : list Byte.byte
}.

(** Decoded sample data; opaque to this program. *)
Definition AudioBuffer := list Q.

(** What [decodeAudioData] rejects with. *)
Definition DOMException := string.

(** [interface Track] *)
Record Track := mkTrack {
  id : string;
  name : string;
  audioBuffer : AudioBuffer;
  player : loc;
  panner : loc;
  pitchShift : loc;
  muted : bool;
  solo : bool;
  volume : number;
  pan : number;
  pitch : number;
  blob : File
}.

(** The Tone.js nodes, with the properties the handlers assign:
    [player.mute], [player.volume.value], [panner.pan.value] and
    [pitchShift.pitch], each a plain assignable property.  The connections
    player -> pitchShift -> panner -> destination are made once at creation
    and read by no handler; they are left out. *)
Record Player := mkPlayer {
  player_buffer : AudioBuffer;
  mute : bool;
  volume_value : number
}.

Record Panner := mkPanner { pan_value : number }.

Record PitchShift := mkPitchShift { pitch_value : number }.

(** A WaveSurfer instance: the options [WaveSurfer.create] was called with
    that vary ([container]) and the blob given to [loadBlob]. *)
Record WaveSurfer := mkWaveSurfer {
  container : string;
  loaded : option File
}.

(** The component's state and the objects it reaches. *)
Record World := mkWorld {
  tracks : list Track;                  (* useState<Track[]>([]) *)
  wavesurferRefs : gmap string loc;     (* useRef({}).current *)
  wavesurfers : list WaveSurfer;        (* instances made by WaveSurfer.create *)
  players : list Player;                (* instances made by new Tone.Player *)
  panners : list Panner;                (* instances made by new Tone.Panner *)
  pitchShifts : list PitchShift;        (* instances made by new Tone.PitchShift *)
  console : list string                 (* lines written to the console *)
}.

Definition initialWorld : World :=
  mkWorld [] ∅ [] [] [] [] [].

(** *** Object spreads [{...track, field: v}] *)

Definition with_muted (b : bool) (t : Track) : Track :=
  mkTrack (id t) (name t) (audioBuffer t) (player t) (panner t) (pitchShift t)
          b (solo t) (volume t) (pan t) (pitch t) (blob t).

Definition with_solo (b : bool) (t : Track) : Track :=
  mkTrack (id t) (name t) (audioBuffer t) (player t) (panner t) (pitchShift t)
          (muted t) b (volume t) (pan t) (pitch t) (blob t).

Definition with_volume (v : number) (t : Track) : Track :=
  mkTrack (id t) (name t) (audioBuffer t) (player t) (panner t) (pitchShift t)
          (muted t) (solo t) v (pan t) (pitch t) (blob t).

Definition with_pan (v : number) (t : Track) : Track :=
  mkTrack (id t) (name t) (audioBuffer t) (player t) (panner t) (pitchShift t)
          (muted t) (solo t) (volume t) v (pitch t) (blob t).

Definition with_pitch (v : number) (t : Track) : Track :=
  mkTrack (id t) (name t) (audioBuffer t) (player t) (panner t) (pitchShift t)
          (muted t) (solo t) (volume t) (pan t) v (blob t).

(** *** State setters and assignments to node properties *)

Definition setTracks (f : list Track -> list Track) (w : World) : World :=
  mkWorld (f (tracks w)) (wavesurferRefs w) (wavesurfers w)
          (players w) (panners w) (pitchShifts w) (console w).

Definition set_player_mute (l : loc) (b : bool) (w : World) : World :=
  mkWorld (tracks w) (wavesurferRefs w) (wavesurfers w)
          (alter (fun p => mkPlayer (player_buffer p) b (volume_value p)) l (players w))
          (panners w) (pitchShifts w) (console w).

Definition set_player_volume (l : loc) (v : number) (w : World) : World :=
  mkWorld (tracks w) (wavesurferRefs w) (wavesurfers w)
          (alter (fun p => mkPlayer (player_buffer p) (mute p) v) l (players w))
          (panners w) (pitchShifts w) (console w).

Definition set_panner_pan (l : loc) (v : number) (w : World) : World :=
  mkWorld (tracks w) (wavesurferRefs w) (wavesurfers w) (players w)
          (alter (fun _ => mkPanner v) l (panners w))
          (pitchShifts w) (console w).

Definition set_pitchShift_pitch (l : loc) (v : number) (w : World) : World :=
  mkWorld (tracks w) (wavesurferRefs w) (wavesurfers w) (players w) (panners w)
          (alter (fun _ => mkPitchShift v) l (pitchShifts w))
          (console w).

(** ** The handlers *)

(** [tracks.find(t => t.id === trackId)] *)
Definition findTrack (trackId : string) (ts : list Track) : option Track :=
  List.find (fun t => String.eqb (id t) trackId) ts.

(** [handleMute] *)
Definition handleMute (trackId : string) (w : World) : World :=
  let w' := setTracks (fmap (fun track =>
              if String.eqb (id track) trackId
              then with_muted (negb (muted track)) track else track)) w in
  match findTrack trackId (tracks w) with
  | Some track => set_player_mute (player track) (negb (muted track)) w'
  | None => w'
  end.

(** The updater that [handleSolo] gives to [setTracks]. *)
Definition soloUpdater (trackId : string) (prevTracks : list Track) : list Track :=
  let updatedTracks := (fun track =>
        if String.eqb (id track) trackId
        then with_solo (negb (solo track)) track else track) <$> prevTracks in
  let hasSoloTrack := existsb solo updatedTracks in
  (fun track =>
     with_muted (if hasSoloTrack then negb (solo track) else muted track) track)
  <$> updatedTracks.

(** [handleSolo] *)
Definition handleSolo (trackId : string) (w : World) : World :=
  setTracks (soloUpdater trackId) w.

(** [handleVolumeChange] *)
Definition handleVolumeChange (trackId : string) (v : number) (w : World) : World :=
  let w' := setTracks (fmap (fun track =>
              if String.eqb (id track) trackId
              then with_volume v track else track)) w in
  match findTrack trackId (tracks w) with
  | Some track => set_player_volume (player track) v w'
  | None => w'
  end.

(** [handlePanChange] *)
Definition handlePanChange (trackId : string) (v : number) (w : World) : World :=
  let w' := setTracks (fmap (fun track =>
              if String.eqb (id track) trackId
              then with_pan v track else track)) w in
  match findTrack trackId (tracks w) with
  | Some track => set_panner_pan (panner track) v w'
  | None => w'
  end.

(** [handlePitchChange] *)
Definition handlePitchChange (trackId : string) (v : number) (w : World) : World :=
  let w' := setTracks (fmap (fun track =>
              if String.eqb (id track) trackId
              then with_pitch v track else track)) w in
  match findTrack trackId (tracks w) with
  | Some track => set_pitchShift_pitch (pitchShift track) v w'
  | None => w'
  end.

(** ** Ingestion: [handleFileUpload] *)

(** [`track-${Date.now()}-${i}`]: the clock reading and the index of the file
    in its batch, both printed in decimal. *)
Definition trackId (now : Z) (i : nat) : string :=
  "track-" +:+ NilZero.string_of_int (Z.to_int now)
  +:+ "-" +:+ NilZero.string_of_uint (Nat.to_uint i).

(** How the promise returned by the [async] handler settles. *)
Inductive Outcome :=
  | Resolved
  | Rejected (e : DOMException).

(** [new Tone.Player(audioBuffer)]: Tone's defaults are unmuted and 0 dB. *)
Definition new_Player (b : AudioBuffer) (w : World) : loc * World :=
  (length (players w),
   mkWorld (tracks w) (wavesurferRefs w) (wavesurfers w)
           (players w ++ [mkPlayer b false 0%Q])
           (panners w) (pitchShifts w) (console w)).

(** [new Tone.Panner(0)] *)
Definition new_Panner (v : number) (w : World) : loc * World :=
  (length (panners w),
   mkWorld (tracks w) (wavesurferRefs w) (wavesurfers w) (players w)
           (panners w ++ [mkPanner v])
           (pitchShifts w) (console w)).

(** [new Tone.PitchShift(0)] *)
Definition new_PitchShift (v : number) (w : World) : loc * World :=
  (length (pitchShifts w),
   mkWorld (tracks w) (wavesurferRefs w) (wavesurfers w) (players w) (panners w)
           (pitchShifts w ++ [mkPitchShift v])
           (console w)).

Section Ingestion.

(** The two readings of the environment the handler takes:
    [Tone.context.decodeAudioData], which resolves with a buffer or
    rejects, and [Date.now()], read once in every iteration of the loop
    ([clock i] is the reading taken in iteration [i]). *)
Variable decodeAudioData : list Byte.byte -> DOMException + AudioBuffer.
Variable clock : nat -> Z.

(** The [for] loop, from index [i] on.  There is no [try]: a rejected
    [await] rejects the handler's promise and ends the loop. *)
Fixpoint uploadLoop (i : nat) (files : list File) (w : World) : World * Outcome :=
  match files with
  | [] => (w, Resolved)
  | file :: rest =>
      match decodeAudioData (file_bytes file) with
      | inl e => (w, Rejected e)
      | inr buf =>
          let '(player, w1) := new_Player buf w in
          let '(panner, w2) := new_Panner 0%Q w1 in
          let '(pitchShift, w3) := new_PitchShift 0%Q w2 in
          let newTrack :=
            mkTrack (trackId (clock i) i) (file_name file) buf
                    player panner pitchShift
                    false false 0%Q 0%Q 0%Q file in
          uploadLoop (S i) rest
            (setTracks (fun prevTracks => prevTracks ++ [newTrack]) w3)
      end
  end.

(** [handleFileUpload]; [files] is [event.target.files], which may be
    [null]. *)
Definition handleFileUpload (files : option (list File)) (w : World)
  : World * Outcome :=
  match files with
  | None => (w, Resolved)
  | Some fs => uploadLoop 0 fs w
  end.

End Ingestion.

(** ** The waveform effect *)

(** [WaveSurfer.create({ container, ... })] *)
Definition WaveSurfer_create (c : string) (w : World) : loc * World :=
  (length (wavesurfers w),
   mkWorld (tracks w) (wavesurferRefs w)
           (wavesurfers w ++ [mkWaveSurfer c None])
           (players w) (panners w) (pitchShifts w) (console w)).

(** [wavesurfer.loadBlob(blob)] *)
Definition loadBlob (l : loc) (b : File) (w : World) : World :=
  mkWorld (tracks w) (wavesurferRefs w)
          (alter (fun ws => mkWaveSurfer (container ws) (Some b)) l (wavesurfers w))
          (players w) (panners w) (pitchShifts w) (console w).

(** [wavesurferRefs.current[key] = wavesurfer] *)
Definition set_wavesurferRef (key : string) (l : loc) (w : World) : World :=
  mkWorld (tracks w) (<[key := l]> (wavesurferRefs w)) (wavesurfers w)
          (players w) (panners w) (pitchShifts w) (console w).

(** The body of the [forEach] of the effect: the view of one track is made
    only when [wavesurferRefs.current] has nothing under the track's id. *)
Definition ensureView (track : Track) (w : World) : World :=
  match wavesurferRefs w !! id track with
  | Some _ => w
  | None =>
      let '(wavesurfer, w1) := WaveSurfer_create ("#waveform-" +:+ id track) w in
      let w2 := loadBlob wavesurfer (blob track) w1 in
      set_wavesurferRef (id track) wavesurfer w2
  end.

(** [useEffect(() => tracks.forEach(...), [tracks])] *)
Definition waveformEffect (w : World) : World :=
  foldl (fun w track => ensureView track w) w (tracks w).

(** ** Vocabulary of the properties *)

(** *** Concrete inputs *)

Definition fileA : File := mkFile "a.wav" [Byte.x01].
Definition fileB : File := mkFile "b.wav" [Byte.x02].
Definition fileBad : File := mkFile "bad.txt" [].
Definition fileC : File := mkFile "c.wav" [Byte.x03].

(** A decoder that rejects empty input and accepts everything else. *)
Definition decodeNonEmpty (bytes : list Byte.byte) : DOMException + AudioBuffer :=
  match bytes with
  | [] => inl "EncodingError"
  | _ => inr [0%Q]
  end.

(** A clock that stands still. *)
Definition frozenClock (t : Z) : nat -> Z := fun _ => t.

Definition twoTracks : World :=
  fst (handleFileUpload decodeNonEmpty (frozenClock 1700000000000) (Some [fileA; fileB])
         initialWorld).

Definition firstId : string := "track-1700000000000-0".
Definition secondId : string := "track-1700000000000-1".

(** The first track of [twoTracks] after its volume was set to 10. *)
Definition loudTrack : Track :=
  with_volume 10 (mkTrack firstId "a.wav" [0%Q] 0 0 0 false false 0 0 0 fileA).

(** The first track muted by the user, then soloed. *)
Definition mutedThenSoloed : World := handleSolo firstId (handleMute firstId twoTracks).

(** A soloed first track and a second track the user then unmuted by hand. *)
Definition soloThenUnmuted : World := handleMute secondId (handleSolo firstId twoTracks).

(** *** Sequences of calls and intermediate lists *)

(** The tracks after the first [map] of [handleSolo]. *)
Definition soloToggled (trackId : string) (prevTracks : list Track) : list Track :=
  (fun track => if String.eqb (id track) trackId
                then with_solo (negb (solo track)) track else track) <$> prevTracks.

(** A sequence of [handleSolo] calls, first id first. *)
Definition toggleSolos (ids : list string) (w : World) : World :=
  foldl (fun w trackId => handleSolo trackId w) w ids.

(** The [forEach] of the effect over a list of tracks. *)
Definition ensureViews (ts : list Track) (w : World) : World :=
  foldl (fun w track => ensureView track w) w ts.

(** *** Predicates on tracks and worlds *)

(** [t'] has every field of [t], except possibly the named one. *)
Definition same_but_volume (t t' : Track) : Prop :=
  id t' = id t /\ name t' = name t /\ audioBuffer t' = audioBuffer t /\
  player t' = player t /\ panner t' = panner t /\ pitchShift t' = pitchShift t /\
  muted t' = muted t /\ solo t' = solo t /\
  pan t' = pan t /\ pitch t' = pitch t /\ blob t' = blob t.

Definition same_but_pan (t t' : Track) : Prop :=
  id t' = id t /\ name t' = name t /\ audioBuffer t' = audioBuffer t /\
  player t' = player t /\ panner t' = panner t /\ pitchShift t' = pitchShift t /\
  muted t' = muted t /\ solo t' = solo t /\
  volume t' = volume t /\ pitch t' = pitch t /\ blob t' = blob t.

Definition same_but_pitch (t t' : Track) : Prop :=
  id t' = id t /\ name t' = name t /\ audioBuffer t' = audioBuffer t /\
  player t' = player t /\ panner t' = panner t /\ pitchShift t' = pitchShift t /\
  muted t' = muted t /\ solo t' = solo t /\
  volume t' = volume t /\ pan t' = pan t /\ blob t' = blob t.

(** The live parameters of the nodes of [t] are the values stored in [t]. *)
Definition track_in_sync (w : World) (t : Track) : Prop :=
  mute <$> players w !! player t = Some (muted t) /\
  volume_value <$> players w !! player t = Some (volume t) /\
  pan_value <$> panners w !! panner t = Some (pan t) /\
  pitch_value <$> pitchShifts w !! pitchShift t = Some (pitch t).

Definition nodes_in_sync (w : World) : Prop :=
  Forall (track_in_sync w) (tracks w).

(** No two positions of the list agree on [f]. *)
Definition unique_on {A} (f : Track -> A) (ts : list Track) : Prop :=
  forall i j t1 t2, ts !! i = Some t1 -> ts !! j = Some t2 -> f t1 = f t2 -> i = j.


(** A file the decoder accepts. *)
Definition decodes (decodeAudioData : list Byte.byte -> DOMException + AudioBuffer)
    (f : File) : Prop :=
  exists buf, decodeAudioData (file_bytes f) = inr buf.

(** The id given to the track made in iteration [j] of the upload loop. *)
Definition idAt (clock : nat -> Z) (j : nat) : string := trackId (clock j) j.

Fixpoint has_dash (s : string) : bool :=
  match s with
  | EmptyString => false
  | String c s' => Ascii.eqb c "-"%char || has_dash s'
  end.

(** The mount point of the view of a track. *)
Definition mountPoint (trackId : string) : string := "#waveform-" +:+ trackId.

(** The views that were created for the track id [trackId]. *)
Definition viewsOf (trackId : string) (w : World) : list WaveSurfer :=
  List.filter (fun ws => String.eqb (container ws) (mountPoint trackId)) (wavesurfers w).

(** Every view on the heap is accounted for by [wavesurferRefs]: an id has
    one view when it is bound and none when it is not. *)
Definition views_match_refs (w : World) : Prop :=
  forall k, length (viewsOf k w) =
            match wavesurferRefs w !! k with Some _ => 1 | None => 0 end.

(** *** Statements of the specification that the handlers do not meet *)

(** The claim that the setters clamp, as a property of the handlers. *)
Definition setters_clamp : Prop :=
  forall (trackId : string) (v : number) (w : World) (t : Track),
    id t = trackId ->
    (t ∈ tracks (handleVolumeChange trackId v w) -> (-60 <= volume t)%Q /\ (volume t <= 0)%Q) /\
    (t ∈ tracks (handlePanChange trackId v w) -> (-1 <= pan t)%Q /\ (pan t <= 1)%Q) /\
    (t ∈ tracks (handlePitchChange trackId v w) -> (-12 <= pitch t)%Q /\ (pitch t <= 12)%Q).

(** The round-trip claim: when no track was soloed before and none is soloed
    after a sequence of toggles, the muted flags are those from before. *)
Definition solo_restores_mute : Prop :=
  forall (w : World) (ids : list string),
    existsb solo (tracks w) = false ->
    existsb solo (tracks (toggleSolos ids w)) = false ->
    muted <$> tracks (toggleSolos ids w) = muted <$> tracks w.

(** The claim on effective mute: after a toggle that leaves a soloed track,
    the tracks that are not soloed are muted and the soloed ones have the
    muted value they had before the call. *)
Definition solo_keeps_user_mute : Prop :=
  forall (trackId : string) (w : World),
    existsb solo (tracks (handleSolo trackId w)) = true ->
    Forall2 (fun t t' => (solo t' = false -> muted t' = true) /\
                         (solo t' = true -> muted t' = muted t))
            (tracks w) (tracks (handleSolo trackId w)).

(** The claim for unknown ids: nothing changes, and a warning is written. *)
Definition unknown_id_warns : Prop :=
  forall (trackId : string) (v : number) (w : World),
    trackId ∉ id <$> tracks w ->
    Forall (fun w' =>
              tracks w' = tracks w /\ players w' = players w /\
              panners w' = panners w /\ pitchShifts w' = pitchShifts w /\
              exists warning, console w' = console w ++ [warning])
           [handleMute trackId w; handleSolo trackId w; handleVolumeChange trackId v w;
            handlePanChange trackId v w; handlePitchChange trackId v w].

(** The independence claim on three files: when the first and the third
    decode and the second does not, the registry gains the first and the
    third. *)
Definition ingestion_is_independent : Prop :=
  forall decode clock (f1 f2 f3 : File) (w : World),
    decodes decode f1 -> ~ decodes decode f2 -> decodes decode f3 ->
    blob <$> tracks (fst (handleFileUpload decode clock (Some [f1; f2; f3]) w))
    = (blob <$> tracks w) ++ [f1; f3].

(** The uniqueness claim: whatever the clock reads, the ids in the registry
    are pairwise distinct after any two upload actions. *)
Definition ids_always_distinct : Prop :=
  forall decode clock1 clock2 (files1 files2 : list File),
    NoDup (id <$> tracks (fst (handleFileUpload decode clock2 (Some files2)
                           (fst (handleFileUpload decode clock1 (Some files1)
                                   initialWorld))))).

(** ** Transport, clock poll and the component as a whole *)

(** The calls the component makes on Tone.js objects that are not node
    properties: [Tone.start()], [Tone.Transport.start()],
    [Tone.Transport.pause()] and [player.start()]. *)
Inductive ToneCall :=
  | Tone_start
  | Transport_start
  | Transport_pause
  | Player_start (l : nat).

(** The whole state of [App]: the world of the tracks, the two other pieces
    of React state, and the calls made so far, oldest first. *)
Record App := mkApp {
  world : World;
  isPlaying : bool;       (* useState(false) *)
  currentTime : Q;        (* useState(0) *)
  calls : list ToneCall
}.

Definition initialApp : App := mkApp initialWorld false 0 [].

(** A handler of the track state, run inside the component. *)
Definition onWorld (f : World -> World) (a : App) : App :=
  mkApp (f (world a)) (isPlaying a) (currentTime a) (calls a).

(** [useEffect(() => { Tone.start(); }, [])] *)
Definition startEffect (a : App) : App :=
  mkApp (world a) (isPlaying a) (currentTime a) (calls a ++ [Tone_start]).

(** [togglePlayPause] *)
Definition togglePlayPause (a : App) : App :=
  mkApp (world a) (negb (isPlaying a)) (currentTime a)
        (if isPlaying a
         then calls a ++ [Transport_pause]
         else calls a ++ Transport_start
                :: ((fun track => Player_start (player track)) <$> tracks (world a))).

(** The callback of [setInterval]: [setCurrentTime(Tone.Transport.seconds)],
    where [seconds] is what the transport reads at that moment. *)
Definition pollClock (seconds : Q) (a : App) : App :=
  mkApp (world a) (isPlaying a) seconds (calls a).

(** What can happen to the component: a user action, a run of the waveform
    effect, or a tick of the interval.  An upload carries the decoder and the
    clock it runs against; the outcome of its promise is dropped, as nothing
    awaits it. *)
Inductive Event :=
  | FileUpload (decodeAudioData : list Byte.byte -> DOMException + AudioBuffer)
               (clock : nat -> Z) (files : option (list File))
  | PlayPause
  | Mute (trackId : string)
  | Solo (trackId : string)
  | VolumeChange (trackId : string) (v : Q)
  | PanChange (trackId : string) (v : Q)
  | PitchChange (trackId : string) (v : Q)
  | TracksEffect
  | Tick (seconds : Q).

Definition step (e : Event) (a : App) : App :=
  match e with
  | FileUpload decode clock files =>
      onWorld (fun w => fst (handleFileUpload decode clock files w)) a
  | PlayPause => togglePlayPause a
  | Mute trackId => onWorld (handleMute trackId) a
  | Solo trackId => onWorld (handleSolo trackId) a
  | VolumeChange trackId v => onWorld (handleVolumeChange trackId v) a
  | PanChange trackId v => onWorld (handlePanChange trackId v) a
  | PitchChange trackId v => onWorld (handlePitchChange trackId v) a
  | TracksEffect => onWorld waveformEffect a
  | Tick seconds => pollClock seconds a
  end.

(** A sequence of events, first event first. *)
Definition run (es : list Event) (a : App) : App :=
  foldl (fun a e => step e a) a es.

(** The component once mounted: the effect with [Tone.start()] has run. *)
Definition mountedApp : App := startEffect initialApp.

(** What identifies a track and is never written after its creation: its id,
    its name, its audio, its file and its three nodes. *)
Definition fixedPart (t : Track) : string * string * AudioBuffer * File * (nat * nat * nat) :=
  (id t, name t, audioBuffer t, blob t, (player t, panner t, pitchShift t)).

(** Every key of [wavesurferRefs] is the id of a track of the list. *)
Definition refs_belong_to_tracks (w : World) : Prop :=
  forall k, is_Some (wavesurferRefs w !! k) -> k ∈ id <$> tracks w.


(** Every entry of [wavesurferRefs] leads to a view that is mounted at the
    mount point of its key and has loaded the file of a track of the list
    with that id. *)
Definition refs_show_tracks (w : World) : Prop :=
  forall k l, wavesurferRefs w !! k = Some l ->
    exists t, t ∈ tracks w /\ id t = k /\
              wavesurfers w !! l = Some (mkWaveSurfer (mountPoint k) (Some (blob t))).

(** *** Further predicates *)

(** [t'] has every field of [t], except possibly [muted]. *)
Definition same_but_muted (t t' : Track) : Prop :=
  id t' = id t /\ name t' = name t /\ audioBuffer t' = audioBuffer t /\
  player t' = player t /\ panner t' = panner t /\ pitchShift t' = pitchShift t /\
  solo t' = solo t /\
  volume t' = volume t /\ pan t' = pan t /\ pitch t' = pitch t /\ blob t' = blob t.

(** [t'] has every field of [t], except possibly [muted] and [solo]. *)
Definition same_but_muted_solo (t t' : Track) : Prop :=
  id t' = id t /\ name t' = name t /\ audioBuffer t' = audioBuffer t /\
  player t' = player t /\ panner t' = panner t /\ pitchShift t' = pitchShift t /\
  volume t' = volume t /\ pan t' = pan t /\ pitch t' = pitch t /\ blob t' = blob t.

(** The nodes were allocated in step with the tracks: there is one player,
    one panner and one pitch shifter per track, and the track at position [k]
    holds the nodes at location [k]. *)
Definition nodes_allocated (w : World) : Prop :=
  length (players w) = length (tracks w) /\
  length (panners w) = length (tracks w) /\
  length (pitchShifts w) = length (tracks w) /\
  forall k t, tracks w !! k = Some t -> player t = k /\ panner t = k /\ pitchShift t = k.

(** A track as [handleFileUpload] makes it from a file the decoder accepts. *)
Definition fresh_track
    (decodeAudioData : list Byte.byte -> DOMException + AudioBuffer) (t : Track) : Prop :=
  muted t = false /\ solo t = false /\
  volume t = 0%Q /\ pan t = 0%Q /\ pitch t = 0%Q /\
  name t = file_name (blob t) /\
  decodeAudioData (file_bytes (blob t)) = inr (audioBuffer t).

(** Whether the last transport call in a list of calls is a start;
    [running] answers for a list without transport calls. *)
Fixpoint transportStarted (running : bool) (cs : list ToneCall) : bool :=
  match cs with
  | [] => running
  | Transport_start :: cs' => transportStarted true cs'
  | Transport_pause :: cs' => transportStarted false cs'
  | _ :: cs' => transportStarted running cs'
  end.

(** Every entry of [wavesurferRefs] leads to a view that is mounted at the
    mount point of its key and has a blob loaded. *)
Definition refs_point_to_views (w : World) : Prop :=
  forall k l, wavesurferRefs w !! k = Some l ->
    exists b, wavesurfers w !! l = Some (mkWaveSurfer (mountPoint k) (Some b)).

(** ** Small checks of the embedding on concrete inputs *)

Example twoTracks_ids :
  id <$> tracks twoTracks = ["track-1700000000000-0"; "track-1700000000000-1"].
Proof. vm_compute. reflexivity. Qed.

Example trackId_negative_clock : trackId (-5) 12 = "track--5-12".
Proof. vm_compute. reflexivity. Qed.

(** ** What the handlers do to the track list *)

Lemma tracks_setTracks f w : tracks (setTracks f w) = f (tracks w).
Proof. reflexivity. Qed.

Lemma tracks_handleMute trackId w :
  tracks (handleMute trackId w) =
  (fun track => if String.eqb (id track) trackId
                then with_muted (negb (muted track)) track else track) <$> tracks w.
Proof. unfold handleMute. destruct (findTrack trackId (tracks w)); reflexivity. Qed.

Lemma tracks_handleVolumeChange trackId v w :
  tracks (handleVolumeChange trackId v w) =
  (fun track => if String.eqb (id track) trackId
                then with_volume v track else track) <$> tracks w.
Proof. unfold handleVolumeChange. destruct (findTrack trackId (tracks w)); reflexivity. Qed.

Lemma tracks_handlePanChange trackId v w :
  tracks (handlePanChange trackId v w) =
  (fun track => if String.eqb (id track) trackId
                then with_pan v track else track) <$> tracks w.
Proof. unfold handlePanChange. destruct (findTrack trackId (tracks w)); reflexivity. Qed.

Lemma tracks_handlePitchChange trackId v w :
  tracks (handlePitchChange trackId v w) =
  (fun track => if String.eqb (id track) trackId
                then with_pitch v track else track) <$> tracks w.
Proof. unfold handlePitchChange. destruct (findTrack trackId (tracks w)); reflexivity. Qed.

(** A pointwise relation between a list and its image under a map. *)
Lemma Forall2_fmap_self {A} (R : A -> A -> Prop) (f : A -> A) (l : list A) :
  (forall x, R x (f x)) -> Forall2 R l (f <$> l).
Proof. intros HR. induction l as [|x l IH]; simpl; constructor; auto. Qed.

(** ** Frame of the volume, pan and pitch setters *)

(** C10. Each of [handleVolumeChange], [handlePanChange] and
    [handlePitchChange] relates the track list before and after position by
    position (so length and order are kept): a track whose id is not the
    given one is the same record afterwards, and a track with the given id
    has the new value in the one field and every other field as before. *)
Theorem setters_frame (trackId : string) (v : number) (w : World) :
  Forall2 (fun t t' => if String.eqb (id t) trackId
                       then same_but_volume t t' /\ volume t' = v else t' = t)
          (tracks w) (tracks (handleVolumeChange trackId v w)) /\
  Forall2 (fun t t' => if String.eqb (id t) trackId
                       then same_but_pan t t' /\ pan t' = v else t' = t)
          (tracks w) (tracks (handlePanChange trackId v w)) /\
  Forall2 (fun t t' => if String.eqb (id t) trackId
                       then same_but_pitch t t' /\ pitch t' = v else t' = t)
          (tracks w) (tracks (handlePitchChange trackId v w)).
Proof.
  rewrite tracks_handleVolumeChange, tracks_handlePanChange, tracks_handlePitchChange.
  repeat split; apply Forall2_fmap_self; intros t;
    destruct (String.eqb (id t) trackId); try reflexivity;
    unfold same_but_volume, same_but_pan, same_but_pitch; simpl; tauto.
Qed.

(** ** The setters store what they are given *)

Example volume_10_is_stored :
  volume <$> tracks (handleVolumeChange firstId 10 twoTracks) = [10%Q; 0%Q].
Proof. vm_compute. reflexivity. Qed.

Example pan_minus_5_is_stored :
  pan <$> tracks (handlePanChange firstId (-5) twoTracks) = [(-5)%Q; 0%Q].
Proof. vm_compute. reflexivity. Qed.

(** C4, as stated, fails: [handleVolumeChange id 10] stores 10, not 0. *)
Lemma setters_clamp_fails : ~ setters_clamp.
Proof.
  intros H.
  destruct (H firstId 10%Q twoTracks loudTrack eq_refl) as [Hvol _].
  assert (Hin : loudTrack ∈ tracks (handleVolumeChange firstId 10 twoTracks)).
  { rewrite tracks_handleVolumeChange. vm_compute. left. }
  destruct (Hvol Hin) as [_ Hle].
  vm_compute in Hle. apply Hle. reflexivity.
Qed.

(** C4, amended. Every track with the given id holds, after the setter, the
    very number the setter was given: nothing is clamped, and the stored
    value is inside the documented range exactly when the input is. *)
Theorem setters_store_input (trackId : string) (v : number) (w : World) (t : Track) :
  id t = trackId ->
  (t ∈ tracks (handleVolumeChange trackId v w) ->
     volume t = v /\ ((-60 <= volume t)%Q /\ (volume t <= 0)%Q <-> (-60 <= v)%Q /\ (v <= 0)%Q)) /\
  (t ∈ tracks (handlePanChange trackId v w) ->
     pan t = v /\ ((-1 <= pan t)%Q /\ (pan t <= 1)%Q <-> (-1 <= v)%Q /\ (v <= 1)%Q)) /\
  (t ∈ tracks (handlePitchChange trackId v w) ->
     pitch t = v /\ ((-12 <= pitch t)%Q /\ (pitch t <= 12)%Q <-> (-12 <= v)%Q /\ (v <= 12)%Q)).
Proof.
  intros Hid.
  rewrite tracks_handleVolumeChange, tracks_handlePanChange, tracks_handlePitchChange.
  split; [|split]; intros Hin;
    apply list_elem_of_fmap in Hin as (t0 & -> & _);
    destruct (String.eqb (id t0) trackId) eqn:E; simpl in *;
    try (apply String.eqb_neq in E; congruence);
    (split; [reflexivity | tauto]).
Qed.

Lemma setters_store_input_witness : volume loudTrack = 10%Q.
Proof.
  refine (proj1 (proj1 (setters_store_input firstId 10%Q twoTracks loudTrack eq_refl) _)).
  rewrite tracks_handleVolumeChange. vm_compute. left.
Defined.

(** ** Solo and mute *)

Lemma existsb_fmap {A B} (p : B -> bool) (f : A -> B) (l : list A) :
  existsb p (f <$> l) = existsb (fun x => p (f x)) l.
Proof.
  induction l as [|x l IH]; [reflexivity|].
  rewrite fmap_cons. simpl. rewrite IH. reflexivity.
Qed.

Lemma existsb_false_Forall {A} (p : A -> bool) (l : list A) :
  existsb p l = false -> Forall (fun x => p x = false) l.
Proof.
  induction l as [|x l IH]; simpl; intros H; constructor;
    apply orb_false_iff in H; tauto.
Qed.

Lemma soloUpdater_unfold trackId ts :
  soloUpdater trackId ts =
  (fun track => with_muted (if existsb solo (soloToggled trackId ts)
                            then negb (solo track) else muted track) track)
  <$> soloToggled trackId ts.
Proof. reflexivity. Qed.

(** The second [map] writes [muted] only: the solo flags are those of the
    first. *)
Lemma soloUpdater_hasSolo trackId ts :
  existsb solo (soloUpdater trackId ts) = existsb solo (soloToggled trackId ts).
Proof. rewrite soloUpdater_unfold, existsb_fmap. reflexivity. Qed.

Lemma soloToggled_muted trackId ts :
  muted <$> soloToggled trackId ts = muted <$> ts.
Proof.
  unfold soloToggled. rewrite <- list_fmap_compose. apply list_fmap_ext.
  intros _ t _. simpl. destruct (String.eqb (id t) trackId); reflexivity.
Qed.

(** With a soloed track in the result, [muted] is [!solo] everywhere. *)
Lemma soloUpdater_solo_present trackId ts t :
  existsb solo (soloUpdater trackId ts) = true ->
  t ∈ soloUpdater trackId ts -> muted t = negb (solo t).
Proof.
  rewrite soloUpdater_hasSolo. intros Hs. rewrite soloUpdater_unfold, Hs.
  intros Hin. apply list_elem_of_fmap in Hin as (t0 & -> & _). reflexivity.
Qed.

(** With no soloed track in the result, [muted] is left as it was. *)
Lemma soloUpdater_solo_absent trackId ts :
  existsb solo (soloUpdater trackId ts) = false ->
  muted <$> soloUpdater trackId ts = muted <$> ts.
Proof.
  rewrite soloUpdater_hasSolo. intros Hs. rewrite soloUpdater_unfold, Hs.
  rewrite <- list_fmap_compose, <- (soloToggled_muted trackId ts).
  apply list_fmap_ext. intros _ t _. reflexivity.
Qed.

Lemma toggleSolos_snoc ids trackId w :
  toggleSolos (ids ++ [trackId]) w = handleSolo trackId (toggleSolos ids w).
Proof. unfold toggleSolos. rewrite foldl_app. reflexivity. Qed.

Example solo_on (w := handleSolo firstId twoTracks) :
  solo <$> tracks w = [true; false] /\ muted <$> tracks w = [false; true].
Proof. vm_compute. split; reflexivity. Qed.

Example solo_on_off (w := toggleSolos [firstId; firstId] twoTracks) :
  solo <$> tracks w = [false; false] /\ muted <$> tracks w = [false; true].
Proof. vm_compute. split; reflexivity. Qed.

(** C1, as stated, fails: two unmuted tracks, solo the first on and off, and
    the second stays muted. *)
Lemma solo_restores_mute_fails : ~ solo_restores_mute.
Proof.
  intros H. specialize (H twoTracks [firstId; firstId] eq_refl eq_refl).
  vm_compute in H. discriminate H.
Qed.

(** C1, amended. The toggle that leaves no track soloed writes no muted flag:
    every track keeps the value it had just before that toggle.  When that
    earlier state was itself produced by a toggle and had a soloed track, this
    value is the one the solo forced: muted for the tracks that were not
    soloed, unmuted for those that were. *)
Theorem solo_off_keeps_forced_mute (w : World) (ids : list string) (trackId : string) :
  existsb solo (tracks (toggleSolos (ids ++ [trackId]) w)) = false ->
  muted <$> tracks (toggleSolos (ids ++ [trackId]) w) = muted <$> tracks (toggleSolos ids w) /\
  (ids <> [] -> existsb solo (tracks (toggleSolos ids w)) = true ->
   muted <$> tracks (toggleSolos (ids ++ [trackId]) w)
   = (fun t => negb (solo t)) <$> tracks (toggleSolos ids w)).
Proof.
  rewrite toggleSolos_snoc. intros Hoff.
  assert (Hkeep : muted <$> tracks (handleSolo trackId (toggleSolos ids w))
                  = muted <$> tracks (toggleSolos ids w)).
  { apply soloUpdater_solo_absent, Hoff. }
  split; [exact Hkeep|].
  intros Hne Hon. rewrite Hkeep.
  destruct (exists_last Hne) as (ids' & lastId & ->).
  rewrite toggleSolos_snoc in *.
  apply list_fmap_ext. intros i t Ht.
  apply (soloUpdater_solo_present lastId (tracks (toggleSolos ids' w))); [exact Hon|].
  apply list_elem_of_lookup. eauto.
Qed.

Lemma solo_off_keeps_forced_mute_witness :
  muted <$> tracks (toggleSolos ([firstId] ++ [firstId]) twoTracks) = [false; true].
Proof.
  refine (eq_trans
    (proj2 (solo_off_keeps_forced_mute twoTracks [firstId] firstId eq_refl) _ eq_refl) _).
  - discriminate.
  - vm_compute. reflexivity.
Defined.

Example mutedThenSoloed_flags :
  muted <$> tracks (handleMute firstId twoTracks) = [true; false] /\
  solo <$> tracks mutedThenSoloed = [true; false] /\
  muted <$> tracks mutedThenSoloed = [false; true].
Proof. vm_compute. repeat split; reflexivity. Qed.

(** C2, as stated, fails: a track the user had muted is unmuted by its own
    solo. *)
Lemma solo_keeps_user_mute_fails : ~ solo_keeps_user_mute.
Proof.
  intros H. specialize (H firstId (handleMute firstId twoTracks) eq_refl).
  vm_compute in H. inversion H as [|t t' l l' [_ Hsolo] _]; subst.
  specialize (Hsolo eq_refl). discriminate Hsolo.
Qed.

(** C2, amended. After a toggle that leaves at least one track soloed, the
    muted flag of every track is the negation of its solo flag: the tracks
    that are not soloed are muted, the soloed ones are unmuted whatever their
    muted flag was before. *)
Theorem solo_forces_mute (trackId : string) (w : World) (t : Track) :
  existsb solo (tracks (handleSolo trackId w)) = true ->
  t ∈ tracks (handleSolo trackId w) ->
  (solo t = false -> muted t = true) /\ (solo t = true -> muted t = false).
Proof.
  intros Hon Hin.
  pose proof (soloUpdater_solo_present trackId (tracks w) t Hon Hin) as Hm.
  rewrite Hm. split; intros ->; reflexivity.
Qed.

Lemma solo_forces_mute_witness :
  muted (with_solo true (mkTrack firstId "a.wav" [0%Q] 0 0 0 false false 0 0 0 fileA)) = false.
Proof.
  refine (proj2 (solo_forces_mute firstId (handleMute firstId twoTracks)
                   (with_solo true (mkTrack firstId "a.wav" [0%Q] 0 0 0 false false 0 0 0 fileA))
                   eq_refl _) eq_refl).
  vm_compute. left.
Defined.

(** ** The nodes as a projection of the track list *)

Lemma findTrack_Some trackId ts tr :
  findTrack trackId ts = Some tr -> (exists j, ts !! j = Some tr) /\ id tr = trackId.
Proof.
  unfold findTrack. intros H. apply find_some in H as [Hin Heq].
  split; [|apply String.eqb_eq, Heq].
  apply list_elem_of_lookup, list_elem_of_In, Hin.
Qed.


Lemma findTrack_unknown trackId ts :
  trackId ∉ id <$> ts -> findTrack trackId ts = None.
Proof.
  intros Hnot. destruct (findTrack trackId ts) as [tr|] eqn:E; [|reflexivity].
  apply findTrack_Some in E as [[j Hj] Hid]. exfalso. apply Hnot.
  apply list_elem_of_fmap. exists tr. split; [congruence|].
  apply list_elem_of_lookup. eauto.
Qed.






(** [handleSolo] assigns to no node. *)
Lemma handleSolo_nodes trackId w :
  players (handleSolo trackId w) = players w /\
  panners (handleSolo trackId w) = panners w /\
  pitchShifts (handleSolo trackId w) = pitchShifts w.
Proof. repeat split. Qed.

Lemma twoTracks_in_sync : nodes_in_sync twoTracks.
Proof. repeat constructor. Qed.

(** C3. On two freshly uploaded tracks, soloing the first mutes the second
    in the track list while the [mute] of its player stays [false]: after
    [handleSolo] the player nodes no longer carry the stored mute state. *)
Theorem handleSolo_leaves_player_stale :
  nodes_in_sync twoTracks /\
  muted <$> tracks (handleSolo firstId twoTracks) = [false; true] /\
  mute <$> players (handleSolo firstId twoTracks) = [false; false] /\
  ~ nodes_in_sync (handleSolo firstId twoTracks).
Proof.
  split; [exact twoTracks_in_sync|].
  split; [vm_compute; reflexivity|].
  split; [vm_compute; reflexivity|].
  intros H. unfold nodes_in_sync in H.
  apply Forall_lookup with (i := 1) (x := with_muted true
    (mkTrack secondId "b.wav" [0%Q] 1 1 1 false false 0 0 0 fileB)) in H;
    [|vm_compute; reflexivity].
  destruct H as [Hmute _]. vm_compute in Hmute. discriminate Hmute.
Qed.

(** ** Handlers called with an id that no track has *)

Lemma setTracks_same f w : f (tracks w) = tracks w -> setTracks f w = w.
Proof. destruct w. unfold setTracks. simpl. intros ->. reflexivity. Qed.

Lemma fmap_unknown_id (f : Track -> Track) trackId (ts : list Track) :
  trackId ∉ id <$> ts ->
  (fun track => if String.eqb (id track) trackId then f track else track) <$> ts = ts.
Proof.
  intros Hnot. rewrite <- (list_fmap_id ts) at 2.
  apply list_fmap_ext. intros i t Ht. simpl.
  destruct (String.eqb (id t) trackId) eqn:E; [|reflexivity].
  exfalso. apply Hnot. apply String.eqb_eq in E. subst trackId.
  apply list_elem_of_fmap. exists t. split; [reflexivity|].
  apply list_elem_of_lookup. eauto.
Qed.

Lemma with_muted_same t : with_muted (muted t) t = t.
Proof. destruct t. reflexivity. Qed.

Example unknown_solo_rewrites_mute :
  muted <$> tracks soloThenUnmuted = [false; false] /\
  muted <$> tracks (handleSolo "track-0-9" soloThenUnmuted) = [false; true].
Proof. vm_compute. split; reflexivity. Qed.

Lemma unknown_id_not_in_twoTracks : "track-0-9" ∉ id <$> tracks twoTracks.
Proof.
  intros Hin. apply list_elem_of_In in Hin. vm_compute in Hin.
  intuition discriminate.
Qed.

(** C7, as stated, fails: [handleMute] with an unknown id writes nothing to
    the console. *)
Lemma unknown_id_warns_fails : ~ unknown_id_warns.
Proof.
  intros H. specialize (H "track-0-9" 0%Q twoTracks).
  pose proof unknown_id_not_in_twoTracks as Hnot.
  apply H in Hnot. inversion Hnot as [|? ? (_ & _ & _ & _ & [warning Hw]) _]; subst.
  vm_compute in Hw. discriminate Hw.
Qed.

(** C7, amended. With an id that no track has, [handleMute],
    [handleVolumeChange], [handlePanChange] and [handlePitchChange] leave the
    whole world as it is: the same track list, the same nodes and the same
    console, so no warning.  [handleSolo] reaches no node and writes nothing
    to the console either, and keeps every solo flag; it leaves the track list
    as it is when no track is soloed, and otherwise sets every muted flag to
    the negation of the solo flag. *)
Theorem unknown_id_is_silent (trackId : string) (v : number) (w : World) :
  trackId ∉ id <$> tracks w ->
  handleMute trackId w = w /\
  handleVolumeChange trackId v w = w /\
  handlePanChange trackId v w = w /\
  handlePitchChange trackId v w = w /\
  players (handleSolo trackId w) = players w /\
  panners (handleSolo trackId w) = panners w /\
  pitchShifts (handleSolo trackId w) = pitchShifts w /\
  console (handleSolo trackId w) = console w /\
  solo <$> tracks (handleSolo trackId w) = solo <$> tracks w /\
  (existsb solo (tracks w) = false -> handleSolo trackId w = w) /\
  (existsb solo (tracks w) = true ->
   muted <$> tracks (handleSolo trackId w) = (fun t => negb (solo t)) <$> tracks w).
Proof.
  intros Hnot.
  pose proof (findTrack_unknown trackId (tracks w) Hnot) as Hfind.
  unfold handleMute, handleVolumeChange, handlePanChange, handlePitchChange.
  rewrite Hfind.
  repeat (split; [apply setTracks_same, fmap_unknown_id, Hnot|]).
  repeat (split; [reflexivity|]).
  assert (Htog : soloToggled trackId (tracks w) = tracks w)
    by (apply fmap_unknown_id, Hnot).
  unfold handleSolo. rewrite tracks_setTracks, soloUpdater_unfold, Htog.
  split; [|split].
  - rewrite <- list_fmap_compose. apply list_fmap_ext. intros i t _. reflexivity.
  - intros Hoff. apply setTracks_same. rewrite soloUpdater_unfold, Htog, Hoff.
    rewrite <- (list_fmap_id (tracks w)) at 2.
    apply list_fmap_ext. intros i t _. apply with_muted_same.
  - intros Hon. rewrite Hon, <- list_fmap_compose.
    apply list_fmap_ext. intros i t _. reflexivity.
Qed.

Lemma unknown_id_is_silent_witness :
  handleMute "track-0-9" twoTracks = twoTracks /\
  handleVolumeChange "track-0-9" 0 twoTracks = twoTracks.
Proof.
  pose proof (unknown_id_is_silent "track-0-9" 0%Q twoTracks unknown_id_not_in_twoTracks)
    as (Hmute & Hvol & _).
  exact (conj Hmute Hvol).
Defined.

(** ** Track ids *)

Lemma append_cons c s t : String c s +:+ t = String c (s +:+ t).
Proof. reflexivity. Qed.

Lemma append_nil t : "" +:+ t = t.
Proof. reflexivity. Qed.

Lemma has_dash_after a b : has_dash (a +:+ String "-" b) = true.
Proof.
  induction a as [|c a IH]; [reflexivity|].
  rewrite append_cons. simpl. rewrite IH. apply orb_true_r.
Qed.

(** A string is cut in one way only at its last dash. *)
Lemma split_at_last_dash a a' b b' :
  has_dash b = false -> has_dash b' = false ->
  a +:+ "-" +:+ b = a' +:+ "-" +:+ b' -> a = a' /\ b = b'.
Proof.
  intros Hb Hb'. revert a'.
  induction a as [|c a IH]; intros [|c' a']; rewrite ?append_cons, ?append_nil.
  - intros [= ->]. split; reflexivity.
  - intros [= <- ->]. rewrite has_dash_after in Hb. discriminate Hb.
  - intros [= -> <-]. rewrite has_dash_after in Hb'. discriminate Hb'.
  - intros [= -> Heq]. destruct (IH a' Heq) as [-> ->]. split; reflexivity.
Qed.

Lemma digits_have_no_dash d : has_dash (NilEmpty.string_of_uint d) = false.
Proof. induction d; simpl; auto. Qed.

Lemma index_has_no_dash i : has_dash (NilZero.string_of_uint (Nat.to_uint i)) = false.
Proof.
  generalize (Nat.to_uint i). intros d.
  destruct d; [reflexivity | simpl; apply digits_have_no_dash ..].
Qed.

Lemma to_uint_not_Nil i : Nat.to_uint i <> Nil.
Proof.
  intros H. pose proof (DecimalNat.Unsigned.to_of (Nat.to_uint i)) as Hn.
  rewrite DecimalNat.Unsigned.of_to, H in Hn.
  apply (DecimalFacts.unorm_nonnil Nil). symmetry. exact Hn.
Qed.

Lemma index_string_inj i j :
  NilZero.string_of_uint (Nat.to_uint i) = NilZero.string_of_uint (Nat.to_uint j) -> i = j.
Proof.
  intros H. apply DecimalNat.Unsigned.to_uint_inj.
  pose proof (NilZero.usu _ (to_uint_not_Nil i)) as Hi.
  pose proof (NilZero.usu _ (to_uint_not_Nil j)) as Hj.
  congruence.
Qed.

Lemma to_int_not_Nil z : Z.to_int z <> Pos Nil /\ Z.to_int z <> Neg Nil.
Proof.
  pose proof (DecimalZ.to_of (Z.to_int z)) as Hn. rewrite DecimalZ.of_to in Hn.
  rewrite Hn. destruct (Z.to_int z) as [d|d]; simpl.
  - split; [|discriminate]. intros [= H]. exact (DecimalFacts.unorm_nonnil d H).
  - destruct (nzhead d); split; discriminate.
Qed.

Lemma clock_string_inj t t' :
  NilZero.string_of_int (Z.to_int t) = NilZero.string_of_int (Z.to_int t') -> t = t'.
Proof.
  intros H. apply DecimalZ.to_int_inj.
  destruct (to_int_not_Nil t) as [Hp Hn], (to_int_not_Nil t') as [Hp' Hn'].
  pose proof (NilZero.isi _ Hp Hn) as Hi.
  pose proof (NilZero.isi _ Hp' Hn') as Hj.
  congruence.
Qed.

(** Two ids are equal only when both the clock reading and the index are. *)
Lemma trackId_inj t i t' j : trackId t i = trackId t' j -> t = t' /\ i = j.
Proof.
  unfold trackId. intros H. apply String.app_inj in H.
  apply split_at_last_dash in H as [Ht Hi]; try apply index_has_no_dash.
  split; [apply clock_string_inj, Ht | apply index_string_inj, Hi].
Qed.

(** ** Facts about ingestion *)

Section IngestionFacts.

Variable decodeAudioData : list Byte.byte -> DOMException + AudioBuffer.
Variable clock : nat -> Z.

Lemma idAt_inj i j : idAt clock i = idAt clock j -> i = j.
Proof. intros H. apply trackId_inj in H. tauto. Qed.

Lemma uploadLoop_rejects i file rest w e :
  decodeAudioData (file_bytes file) = inl e ->
  uploadLoop decodeAudioData clock i (file :: rest) w = (w, Rejected e).
Proof. intros H. simpl. rewrite H. reflexivity. Qed.

(** The files of a prefix that decodes are all ingested, in order, and the
    loop goes on with the rest. *)
Lemma uploadLoop_decoded_prefix pre :
  Forall (decodes decodeAudioData) pre ->
  forall i rest w, exists w',
    uploadLoop decodeAudioData clock i (pre ++ rest) w
    = uploadLoop decodeAudioData clock (i + length pre) rest w' /\
    blob <$> tracks w' = (blob <$> tracks w) ++ pre /\
    name <$> tracks w' = (name <$> tracks w) ++ (file_name <$> pre).
Proof.
  induction 1 as [|file pre [buf Hbuf] _ IH]; intros i rest w.
  - exists w. rewrite Nat.add_0_r, !app_nil_r. auto.
  - simpl. rewrite Hbuf.
    match goal with |- context [uploadLoop _ _ (S i) _ ?w1] =>
      destruct (IH (S i) rest w1) as (w' & Hrun & Hblob & Hname) end.
    exists w'. rewrite Hrun, Hblob, Hname. simpl.
    rewrite !fmap_app, <- !app_assoc, Nat.add_succ_r. auto.
Qed.

(** The tracks a run of the loop appends carry the ids of consecutive
    iterations. *)
Lemma uploadLoop_new_ids files :
  forall i w, exists new n,
    tracks (fst (uploadLoop decodeAudioData clock i files w)) = tracks w ++ new /\
    id <$> new = idAt clock <$> seq i n.
Proof.
  induction files as [|file rest IH]; intros i w.
  - exists [], 0. simpl. rewrite app_nil_r. auto.
  - simpl. destruct (decodeAudioData (file_bytes file)) as [e|buf].
    + exists [], 0. simpl. rewrite app_nil_r. auto.
    + match goal with |- context [uploadLoop _ _ (S i) _ ?w1] =>
        destruct (IH (S i) w1) as (new & n & Htracks & Hids) end.
      simpl in Htracks. rewrite <- app_assoc in Htracks. simpl in Htracks.
      eexists (_ :: new), (S n). split; [exact Htracks|].
      rewrite fmap_cons, Hids. reflexivity.
Qed.

End IngestionFacts.

Example second_of_three_fails
  (r := handleFileUpload decodeNonEmpty (frozenClock 0) (Some [fileA; fileBad; fileC])
          initialWorld) :
  name <$> tracks (fst r) = ["a.wav"] /\ snd r = Rejected "EncodingError".
Proof. vm_compute. split; reflexivity. Qed.

(** C5, as stated, fails: the failure of the second file ends the batch, and
    the third file is never ingested. *)
Lemma ingestion_is_independent_fails : ~ ingestion_is_independent.
Proof.
  intros H.
  specialize (H decodeNonEmpty (frozenClock 0) fileA fileBad fileC initialWorld).
  assert (Hlen : length (blob <$> tracks (fst (handleFileUpload decodeNonEmpty
                   (frozenClock 0) (Some [fileA; fileBad; fileC]) initialWorld))) = 2).
  { rewrite H; [reflexivity | eexists; reflexivity | | eexists; reflexivity].
    intros [buf Hbuf]. discriminate Hbuf. }
  vm_compute in Hlen. discriminate Hlen.
Qed.

(** C5, amended. The files of a batch are ingested in order up to the first
    one that fails to decode: the files before it become tracks, in their
    order and after the tracks already there; the failure rejects the
    handler's promise with the decoder's error, and no later file of the batch
    is ingested. *)
Theorem upload_stops_at_first_failure
    decode clock (pre : list File) (bad : File) (post : list File) (e : DOMException)
    (w : World) :
  Forall (decodes decode) pre ->
  decode (file_bytes bad) = inl e ->
  snd (handleFileUpload decode clock (Some (pre ++ bad :: post)) w) = Rejected e /\
  blob <$> tracks (fst (handleFileUpload decode clock (Some (pre ++ bad :: post)) w))
  = (blob <$> tracks w) ++ pre /\
  name <$> tracks (fst (handleFileUpload decode clock (Some (pre ++ bad :: post)) w))
  = (name <$> tracks w) ++ (file_name <$> pre).
Proof.
  intros Hpre Hbad. simpl.
  destruct (uploadLoop_decoded_prefix decode clock pre Hpre 0 (bad :: post) w)
    as (w' & Hrun & Hblob & Hname).
  rewrite Hrun, (uploadLoop_rejects decode clock _ bad post w' e Hbad). simpl. auto.
Qed.

Lemma upload_stops_at_first_failure_witness :
  snd (handleFileUpload decodeNonEmpty (frozenClock 0)
         (Some ([fileA] ++ fileBad :: [fileC])) initialWorld) = Rejected "EncodingError" /\
  blob <$> tracks (fst (handleFileUpload decodeNonEmpty (frozenClock 0)
         (Some ([fileA] ++ fileBad :: [fileC])) initialWorld)) = [fileA].
Proof.
  assert (Hpre : Forall (decodes decodeNonEmpty) [fileA]).
  { constructor; [eexists; reflexivity | constructor]. }
  pose proof (upload_stops_at_first_failure decodeNonEmpty (frozenClock 0)
                [fileA] fileBad [fileC] "EncodingError" initialWorld Hpre eq_refl)
    as (Hout & Hblob & _).
  exact (conj Hout Hblob).
Defined.

(** When every file decodes, the whole batch is ingested and the promise
    resolves. *)
Lemma upload_all_decoded decode clock (files : list File) (w : World) :
  Forall (decodes decode) files ->
  snd (handleFileUpload decode clock (Some files) w) = Resolved /\
  blob <$> tracks (fst (handleFileUpload decode clock (Some files) w))
  = (blob <$> tracks w) ++ files.
Proof.
  intros Hall. simpl.
  destruct (uploadLoop_decoded_prefix decode clock files Hall 0 [] w)
    as (w' & Hrun & Hblob & _).
  rewrite app_nil_r in Hrun. rewrite Hrun. simpl. auto.
Qed.

Example same_instant_uploads
  (w := fst (handleFileUpload decodeNonEmpty (frozenClock 1700000000000) (Some [fileB])
          (fst (handleFileUpload decodeNonEmpty (frozenClock 1700000000000) (Some [fileA])
                  initialWorld)))) :
  id <$> tracks w = [firstId; firstId] /\ name <$> tracks w = ["a.wav"; "b.wav"].
Proof. vm_compute. split; reflexivity. Qed.

(** C6, as stated, fails: two upload actions of one file each that read the
    same clock value give both tracks the same id. *)
Lemma ids_always_distinct_fails : ~ ids_always_distinct.
Proof.
  intros H.
  specialize (H decodeNonEmpty (frozenClock 1700000000000) (frozenClock 1700000000000)
                [fileA] [fileB]).
  vm_compute in H. apply NoDup_cons in H as [Hnotin _].
  apply Hnotin. left.
Qed.

(** C6, amended. The tracks that one upload action adds have pairwise
    distinct ids, whatever the clock reads during the action: the position of
    the file in its batch is part of the id. *)
Theorem upload_ids_distinct decode clock (files : option (list File)) (w : World) :
  exists new,
    tracks (fst (handleFileUpload decode clock files w)) = tracks w ++ new /\
    NoDup (id <$> new).
Proof.
  destruct files as [fs|]; simpl.
  - destruct (uploadLoop_new_ids decode clock fs 0 w) as (new & n & Htracks & Hids).
    exists new. split; [exact Htracks|].
    rewrite Hids. apply NoDup_fmap_2; [|apply NoDup_seq].
    intros i j. apply idAt_inj.
  - exists []. rewrite app_nil_r. split; [reflexivity | constructor].
Qed.

(** ** The waveform views *)

Lemma alter_last {A} (f : A -> A) (l : list A) (x : A) :
  alter f (length l) (l ++ [x]) = l ++ [f x].
Proof. induction l as [|y l IH]; simpl; [reflexivity|]. f_equal. exact IH. Qed.

(** What [ensureView] does for an id that has no view yet. *)
Lemma ensureView_unbound t w :
  wavesurferRefs w !! id t = None ->
  ensureView t w =
  mkWorld (tracks w) (<[id t := length (wavesurfers w)]> (wavesurferRefs w))
          (wavesurfers w ++ [mkWaveSurfer (mountPoint (id t)) (Some (blob t))])
          (players w) (panners w) (pitchShifts w) (console w).
Proof.
  intros H. unfold ensureView. rewrite H.
  unfold WaveSurfer_create, loadBlob, set_wavesurferRef. simpl.
  rewrite alter_last. reflexivity.
Qed.

(** For an id that has a view, [ensureView] creates and loads nothing. *)
Lemma ensureView_bound t w :
  is_Some (wavesurferRefs w !! id t) -> ensureView t w = w.
Proof. intros [l H]. unfold ensureView. rewrite H. reflexivity. Qed.

Lemma ensureView_tracks t w : tracks (ensureView t w) = tracks w.
Proof.
  destruct (wavesurferRefs w !! id t) eqn:E.
  - rewrite ensureView_bound; eauto.
  - rewrite ensureView_unbound; auto.
Qed.

Lemma ensureView_binds t w : is_Some (wavesurferRefs (ensureView t w) !! id t).
Proof.
  destruct (wavesurferRefs w !! id t) eqn:E.
  - rewrite ensureView_bound; rewrite E; eauto.
  - rewrite ensureView_unbound by exact E. simpl. rewrite lookup_insert_eq. eauto.
Qed.

Lemma ensureView_keeps_bound t w k :
  is_Some (wavesurferRefs w !! k) -> is_Some (wavesurferRefs (ensureView t w) !! k).
Proof.
  intros Hk. destruct (wavesurferRefs w !! id t) eqn:E.
  - rewrite ensureView_bound; eauto.
  - rewrite ensureView_unbound by exact E. simpl.
    destruct (decide (id t = k)) as [->|Hne].
    + rewrite lookup_insert_eq. eauto.
    + rewrite lookup_insert_ne; auto.
Qed.

Lemma mountPoint_eqb k k' :
  String.eqb (mountPoint k) (mountPoint k') = String.eqb k k'.
Proof.
  destruct (String.eqb_spec k k') as [->|Hne].
  - apply String.eqb_refl.
  - apply String.eqb_neq. intros H. apply Hne.
    unfold mountPoint in H. apply String.app_inj in H. exact H.
Qed.

Lemma ensureView_keeps_match t w :
  views_match_refs w -> views_match_refs (ensureView t w).
Proof.
  intros Hinv. destruct (wavesurferRefs w !! id t) eqn:E.
  - rewrite ensureView_bound; eauto.
  - rewrite ensureView_unbound by exact E. intros k.
    unfold viewsOf. cbn [wavesurfers wavesurferRefs].
    rewrite List.filter_app, length_app. cbn [List.filter container].
    rewrite mountPoint_eqb. fold (viewsOf k w). rewrite (Hinv k).
    destruct (String.eqb_spec (id t) k) as [<-|Hne].
    + rewrite lookup_insert_eq, E. reflexivity.
    + rewrite lookup_insert_ne by exact Hne.
      destruct (wavesurferRefs w !! k); reflexivity.
Qed.

Lemma ensureViews_tracks ts w : tracks (ensureViews ts w) = tracks w.
Proof.
  revert w. induction ts as [|t ts IH]; intros w; simpl; [reflexivity|].
  rewrite IH. apply ensureView_tracks.
Qed.

Lemma ensureViews_keeps_bound ts w k :
  is_Some (wavesurferRefs w !! k) -> is_Some (wavesurferRefs (ensureViews ts w) !! k).
Proof.
  revert w. induction ts as [|t ts IH]; intros w Hk; simpl; [exact Hk|].
  apply IH, ensureView_keeps_bound, Hk.
Qed.

Lemma ensureViews_binds ts w t :
  t ∈ ts -> is_Some (wavesurferRefs (ensureViews ts w) !! id t).
Proof.
  revert w. induction ts as [|t0 ts IH]; intros w Hin; [inversion Hin|].
  simpl. apply elem_of_cons in Hin as [->|Hin].
  - apply ensureViews_keeps_bound, ensureView_binds.
  - apply IH, Hin.
Qed.

Lemma ensureViews_all_bound ts w :
  (forall t, t ∈ ts -> is_Some (wavesurferRefs w !! id t)) -> ensureViews ts w = w.
Proof.
  revert w. induction ts as [|t ts IH]; intros w Hall; simpl; [reflexivity|].
  rewrite (ensureView_bound t w) by (apply Hall; left).
  apply IH. intros t' Hin. apply Hall. right. exact Hin.
Qed.

Lemma ensureViews_keeps_match ts w :
  views_match_refs w -> views_match_refs (ensureViews ts w).
Proof.
  revert w. induction ts as [|t ts IH]; intros w Hinv; simpl; [exact Hinv|].
  apply IH, ensureView_keeps_match, Hinv.
Qed.

Lemma waveformEffect_unfold w : waveformEffect w = ensureViews (tracks w) w.
Proof. reflexivity. Qed.

Lemma waveformEffect_twice w : waveformEffect (waveformEffect w) = waveformEffect w.
Proof.
  rewrite (waveformEffect_unfold (waveformEffect w)).
  apply ensureViews_all_bound. intros t Hin.
  rewrite waveformEffect_unfold, ensureViews_tracks in Hin.
  rewrite waveformEffect_unfold. apply ensureViews_binds, Hin.
Qed.

Lemma waveformEffect_iter n w :
  Nat.iter (S n) waveformEffect w = waveformEffect w.
Proof.
  induction n as [|n IH]; [reflexivity|].
  change (Nat.iter (S (S n)) waveformEffect w)
    with (waveformEffect (Nat.iter (S n) waveformEffect w)).
  rewrite IH. apply waveformEffect_twice.
Qed.

Lemma initialWorld_views_match : views_match_refs initialWorld.
Proof. intros k. reflexivity. Qed.

(** The event handlers reach neither [wavesurferRefs] nor the views, so the
    views stay those recorded in [wavesurferRefs] in every state of the
    component. *)
Lemma views_match_refs_same w w' :
  wavesurferRefs w' = wavesurferRefs w -> wavesurfers w' = wavesurfers w ->
  views_match_refs w -> views_match_refs w'.
Proof.
  intros Hrefs Hviews Hinv k. unfold viewsOf. rewrite Hrefs, Hviews. apply Hinv.
Qed.

Lemma handlers_keep_views_match trackId v w :
  views_match_refs w ->
  views_match_refs (handleMute trackId w) /\
  views_match_refs (handleSolo trackId w) /\
  views_match_refs (handleVolumeChange trackId v w) /\
  views_match_refs (handlePanChange trackId v w) /\
  views_match_refs (handlePitchChange trackId v w).
Proof.
  intros Hinv.
  unfold handleMute, handleVolumeChange, handlePanChange, handlePitchChange.
  destruct (findTrack trackId (tracks w));
    repeat split; apply (views_match_refs_same w); auto.
Qed.

Lemma uploadLoop_keeps_views decode clock files :
  forall i w,
    wavesurferRefs (fst (uploadLoop decode clock i files w)) = wavesurferRefs w /\
    wavesurfers (fst (uploadLoop decode clock i files w)) = wavesurfers w.
Proof.
  induction files as [|file rest IH]; intros i w; simpl; [auto|].
  destruct (decode (file_bytes file)) as [e|buf]; [auto|].
  match goal with |- context [uploadLoop _ _ (S i) _ ?w1] =>
    destruct (IH (S i) w1) as [Hrefs Hviews] end.
  rewrite Hrefs, Hviews. auto.
Qed.

Lemma handleFileUpload_keeps_views_match decode clock files w :
  views_match_refs w ->
  views_match_refs (fst (handleFileUpload decode clock files w)).
Proof.
  intros Hinv. destruct files as [fs|]; simpl; [|exact Hinv].
  destruct (uploadLoop_keeps_views decode clock fs 0 w) as [Hrefs Hviews].
  apply (views_match_refs_same w); auto.
Qed.

Lemma waveformEffect_keeps_views_match w :
  views_match_refs w -> views_match_refs (waveformEffect w).
Proof. apply ensureViews_keeps_match. Qed.

Example twoTracks_views (w := Nat.iter 3 waveformEffect twoTracks) :
  container <$> wavesurfers w
  = ["#waveform-track-1700000000000-0"; "#waveform-track-1700000000000-1"] /\
  loaded <$> wavesurfers w = [Some fileA; Some fileB].
Proof. vm_compute. split; reflexivity. Qed.

(** C8. Running the waveform effect [n > 1] times over the same track list
    is the same as running it once; for a track whose id already has a view,
    [ensureView] changes nothing, so it creates and loads nothing; and in a
    world whose views are those recorded in [wavesurferRefs] (as in the
    initial world), after the runs every track of the list has exactly one
    view, and that view is recorded under the track's id. *)
Theorem waveformEffect_idempotent (w : World) (n : nat) :
  1 < n ->
  Nat.iter n waveformEffect w = waveformEffect w /\
  (forall t, is_Some (wavesurferRefs w !! id t) -> ensureView t w = w) /\
  (views_match_refs w ->
   forall t, t ∈ tracks w ->
     length (viewsOf (id t) (Nat.iter n waveformEffect w)) = 1 /\
     is_Some (wavesurferRefs (Nat.iter n waveformEffect w) !! id t)).
Proof.
  intros Hn. destruct n as [|n]; [lia|].
  rewrite waveformEffect_iter.
  split; [reflexivity|]. split; [intros t; apply ensureView_bound|].
  intros Hinv t Hin.
  pose proof (ensureViews_binds (tracks w) w t Hin) as Hbound.
  pose proof (ensureViews_keeps_match (tracks w) w Hinv (id t)) as Hcount.
  rewrite waveformEffect_unfold. split; [|exact Hbound].
  rewrite Hcount. destruct Hbound as [l ->]. reflexivity.
Qed.

Lemma waveformEffect_idempotent_witness :
  Nat.iter 2 waveformEffect twoTracks = waveformEffect twoTracks /\
  forall t, t ∈ tracks twoTracks ->
    length (viewsOf (id t) (Nat.iter 2 waveformEffect twoTracks)) = 1.
Proof.
  assert (Hn : 1 < 2) by lia.
  destruct (waveformEffect_idempotent twoTracks 2 Hn) as (Hiter & _ & Hone).
  split; [exact Hiter|].
  intros t Hin. apply Hone; [|exact Hin].
  apply handleFileUpload_keeps_views_match, initialWorld_views_match.
Defined.

(** ** More on the control handlers *)

(** A [map] that keeps ids does not change which track [find] returns. *)
Lemma findTrack_fmap (f : Track -> Track) trackId (ts : list Track) :
  (forall t, id (f t) = id t) ->
  findTrack trackId (f <$> ts) = f <$> findTrack trackId ts.
Proof.
  intros Hid. unfold findTrack.
  induction ts as [|t ts IH]; [reflexivity|].
  rewrite fmap_cons. simpl. rewrite Hid.
  destruct (String.eqb (id t) trackId); [reflexivity | exact IH].
Qed.

(** An update that does not change the element it reaches changes nothing. *)
Lemma alter_fixed {A} (g : A -> A) (l : list A) (i : nat) :
  (forall x, l !! i = Some x -> g x = x) -> alter g i l = l.
Proof.
  revert i. induction l as [|y l IH]; intros i Hfix; [reflexivity|].
  destruct i as [|i]; simpl.
  - f_equal. apply Hfix. reflexivity.
  - f_equal. apply IH. intros x Hx. apply Hfix. exact Hx.
Qed.

(** The handlers written out field by field. *)
Lemma handleMute_fields trackId w :
  handleMute trackId w =
  mkWorld ((fun track => if String.eqb (id track) trackId
                         then with_muted (negb (muted track)) track else track)
           <$> tracks w)
          (wavesurferRefs w) (wavesurfers w)
          (match findTrack trackId (tracks w) with
           | Some track =>
               alter (fun p => mkPlayer (player_buffer p) (negb (muted track)) (volume_value p))
                     (player track) (players w)
           | None => players w
           end)
          (panners w) (pitchShifts w) (console w).
Proof. unfold handleMute. destruct (findTrack trackId (tracks w)); reflexivity. Qed.

Lemma handleVolumeChange_fields trackId v w :
  handleVolumeChange trackId v w =
  mkWorld ((fun track => if String.eqb (id track) trackId
                         then with_volume v track else track) <$> tracks w)
          (wavesurferRefs w) (wavesurfers w)
          (match findTrack trackId (tracks w) with
           | Some track =>
               alter (fun p => mkPlayer (player_buffer p) (mute p) v)
                     (player track) (players w)
           | None => players w
           end)
          (panners w) (pitchShifts w) (console w).
Proof. unfold handleVolumeChange. destruct (findTrack trackId (tracks w)); reflexivity. Qed.

Lemma handlePanChange_fields trackId v w :
  handlePanChange trackId v w =
  mkWorld ((fun track => if String.eqb (id track) trackId
                         then with_pan v track else track) <$> tracks w)
          (wavesurferRefs w) (wavesurfers w) (players w)
          (match findTrack trackId (tracks w) with
           | Some track => alter (fun _ => mkPanner v) (panner track) (panners w)
           | None => panners w
           end)
          (pitchShifts w) (console w).
Proof. unfold handlePanChange. destruct (findTrack trackId (tracks w)); reflexivity. Qed.

Lemma handlePitchChange_fields trackId v w :
  handlePitchChange trackId v w =
  mkWorld ((fun track => if String.eqb (id track) trackId
                         then with_pitch v track else track) <$> tracks w)
          (wavesurferRefs w) (wavesurfers w) (players w) (panners w)
          (match findTrack trackId (tracks w) with
           | Some track => alter (fun _ => mkPitchShift v) (pitchShift track) (pitchShifts w)
           | None => pitchShifts w
           end)
          (console w).
Proof. unfold handlePitchChange. destruct (findTrack trackId (tracks w)); reflexivity. Qed.

Lemma if_id_keeps_id (f : Track -> Track) trackId :
  (forall t, id (f t) = id t) ->
  forall t, id (if String.eqb (id t) trackId then f t else t) = id t.
Proof. intros Hf t. destruct (String.eqb (id t) trackId); [apply Hf | reflexivity]. Qed.

(** X1. [handleMute] changes one field only, [muted], and only on the tracks
    with the given id, where it negates it; [handleSolo] changes [muted] and
    [solo] only, and negates [solo] on the tracks with the given id and
    nowhere else.  Length and order of the list are kept by both. *)
Theorem mute_and_solo_frame (trackId : string) (w : World) :
  Forall2 (fun t t' => if String.eqb (id t) trackId
                       then same_but_muted t t' /\ muted t' = negb (muted t)
                       else t' = t)
          (tracks w) (tracks (handleMute trackId w)) /\
  Forall2 (fun t t' => same_but_muted_solo t t' /\
                       solo t' = if String.eqb (id t) trackId
                                 then negb (solo t) else solo t)
          (tracks w) (tracks (handleSolo trackId w)).
Proof.
  split.
  - rewrite tracks_handleMute. apply Forall2_fmap_self. intros t.
    destruct (String.eqb (id t) trackId); [|reflexivity].
    unfold same_but_muted. simpl. tauto.
  - unfold handleSolo. rewrite tracks_setTracks, soloUpdater_unfold.
    unfold soloToggled at 2. rewrite <- list_fmap_compose.
    apply Forall2_fmap_self. intros t. unfold same_but_muted_solo. simpl.
    destruct (String.eqb (id t) trackId); simpl; tauto.
Qed.

(** X2. In a world whose nodes carry the stored values, muting a track and
    muting it again gives back the very same world: the track list and the
    player's [mute] both return to what they were. *)
Theorem handleMute_twice (trackId : string) (w : World) :
  nodes_in_sync w -> handleMute trackId (handleMute trackId w) = w.
Proof.
  intros Hsync.
  rewrite (handleMute_fields trackId (handleMute trackId w)).
  rewrite !handleMute_fields. cbn [tracks wavesurferRefs wavesurfers players panners
                                    pitchShifts console].
  rewrite findTrack_fmap
    by (apply (if_id_keeps_id (fun t => with_muted (negb (muted t)) t)); reflexivity).
  destruct w as [ts refs views ps pas pis con].
  cbn [tracks wavesurferRefs wavesurfers players panners pitchShifts console] in *.
  f_equal.
  - rewrite <- list_fmap_compose. rewrite <- (list_fmap_id ts) at 2.
    apply list_fmap_ext. intros i t _. simpl.
    destruct (String.eqb (id t) trackId) eqn:E; [|rewrite E; reflexivity].
    simpl. rewrite E. destruct t. simpl. rewrite negb_involutive. reflexivity.
  - destruct (findTrack trackId ts) as [tr|] eqn:Efind; [|reflexivity].
    apply findTrack_Some in Efind as [[j Hj] Hid]. simpl.
    rewrite Hid, String.eqb_refl. simpl.
    rewrite list_alter_alter_eq. apply alter_fixed. intros p Hp. simpl.
    unfold nodes_in_sync in Hsync. rewrite Forall_lookup in Hsync.
    destruct (Hsync j tr Hj) as [Hmute _]. cbn in Hmute. rewrite Hp in Hmute.
    injection Hmute as Hmute. rewrite negb_involutive, <- Hmute.
    destruct p. reflexivity.
Qed.

Lemma handleMute_twice_witness :
  handleMute firstId (handleMute firstId twoTracks) = twoTracks.
Proof. exact (handleMute_twice firstId twoTracks twoTracks_in_sync). Defined.

Lemma existsb_by_flags (ts ts' : list Track) :
  solo <$> ts = solo <$> ts' -> existsb solo ts = existsb solo ts'.
Proof.
  revert ts'. induction ts as [|t ts IH]; intros [|t' ts']; try discriminate;
    [reflexivity|].
  rewrite !fmap_cons. intros [= Hhead Htail]. simpl.
  rewrite Hhead, (IH ts' Htail). reflexivity.
Qed.

(** Toggling the solo of the same id twice gives back every solo flag. *)
Lemma soloUpdater_twice_flags trackId ts :
  solo <$> soloToggled trackId (soloUpdater trackId ts) = solo <$> ts.
Proof.
  rewrite soloUpdater_unfold. unfold soloToggled. rewrite <- !list_fmap_compose.
  apply list_fmap_ext. intros i t _. simpl.
  destruct (String.eqb (id t) trackId) eqn:E; simpl; rewrite E; simpl;
    [apply negb_involutive | reflexivity].
Qed.

(** X3. While some track is soloed and every muted flag is the one the solo
    forces ([muted = !solo], as after any [handleSolo] that leaves a soloed
    track), toggling the solo of a track and toggling it back gives the very
    same world. *)
Theorem handleSolo_twice (trackId : string) (w : World) :
  existsb solo (tracks w) = true ->
  Forall (fun t => muted t = negb (solo t)) (tracks w) ->
  handleSolo trackId (handleSolo trackId w) = w.
Proof.
  intros Hon Hforced. unfold handleSolo.
  destruct w as [ts refs views ps pas pis con]. unfold setTracks.
  cbn [tracks wavesurferRefs wavesurfers players panners pitchShifts console] in *.
  f_equal.
  assert (Hhas : existsb solo (soloToggled trackId (soloUpdater trackId ts)) = true).
  { rewrite (existsb_by_flags _ ts); [exact Hon | apply soloUpdater_twice_flags]. }
  rewrite (soloUpdater_unfold trackId (soloUpdater trackId ts)), Hhas.
  rewrite soloUpdater_unfold.
  generalize (existsb solo (soloToggled trackId ts)). intros b.
  unfold soloToggled.
  rewrite <- !list_fmap_compose. rewrite <- (list_fmap_id ts) at 2.
  apply list_fmap_ext. intros i t Ht. simpl.
  rewrite Forall_lookup in Hforced. specialize (Hforced i t Ht).
  destruct t as [tid nm buf pl pa pi m s v p pt bl]. simpl in *. subst m.
  destruct (String.eqb tid trackId) eqn:E; simpl; rewrite E; simpl;
    rewrite ?negb_involutive; reflexivity.
Qed.

Lemma handleSolo_twice_witness :
  handleSolo secondId (handleSolo secondId (handleSolo firstId twoTracks))
  = handleSolo firstId twoTracks.
Proof.
  refine (handleSolo_twice secondId (handleSolo firstId twoTracks) eq_refl _).
  repeat constructor.
Defined.


(** X5. Setters of different parameters do not interfere: in either order,
    for any two ids, a volume change, a pan change and a pitch change give
    the same world. *)
Theorem setters_commute (idA idB : string) (a b : Q) (w : World) :
  handleVolumeChange idA a (handlePanChange idB b w)
  = handlePanChange idB b (handleVolumeChange idA a w) /\
  handleVolumeChange idA a (handlePitchChange idB b w)
  = handlePitchChange idB b (handleVolumeChange idA a w) /\
  handlePanChange idA a (handlePitchChange idB b w)
  = handlePitchChange idB b (handlePanChange idA a w).
Proof.
  rewrite (handleVolumeChange_fields idA a (handlePanChange idB b w)).
  rewrite (handleVolumeChange_fields idA a (handlePitchChange idB b w)).
  rewrite (handlePanChange_fields idA a (handlePitchChange idB b w)).
  rewrite (handlePanChange_fields idB b (handleVolumeChange idA a w)).
  rewrite (handlePitchChange_fields idB b (handleVolumeChange idA a w)).
  rewrite (handlePitchChange_fields idB b (handlePanChange idA a w)).
  rewrite !handleVolumeChange_fields, !handlePanChange_fields, !handlePitchChange_fields.
  cbn [tracks wavesurferRefs wavesurfers players panners pitchShifts console].
  rewrite (findTrack_fmap _ idA (tracks w)
             (if_id_keeps_id (with_pan b) idB (fun _ => eq_refl))).
  rewrite (findTrack_fmap _ idA (tracks w)
             (if_id_keeps_id (with_pitch b) idB (fun _ => eq_refl))).
  rewrite (findTrack_fmap _ idB (tracks w)
             (if_id_keeps_id (with_volume a) idA (fun _ => eq_refl))).
  rewrite (findTrack_fmap _ idB (tracks w)
             (if_id_keeps_id (with_pan a) idA (fun _ => eq_refl))).
  repeat split; f_equal;
    try (rewrite <- !list_fmap_compose; apply list_fmap_ext; intros i t _; simpl;
         destruct (String.eqb (id t) idA) eqn:EA;
         destruct (String.eqb (id t) idB) eqn:EB; simpl;
         rewrite ?EA, ?EB; reflexivity);
    match goal with
    | |- context [findTrack ?k (tracks w)] =>
        destruct (findTrack k (tracks w)) as [tr|]; [|reflexivity]; simpl;
        match goal with
        | |- context [String.eqb (id tr) ?k'] =>
            destruct (String.eqb (id tr) k'); reflexivity
        end
    end.
Qed.




(** ** More on ingestion *)

Section UploadFacts.

Variable decodeAudioData : list Byte.byte -> DOMException + AudioBuffer.
Variable clock : nat -> Z.

(** How a run of the loop ends: with every file decoded, or at the first file
    that is not. *)
Lemma uploadLoop_outcome files :
  forall i w,
    match snd (uploadLoop decodeAudioData clock i files w) with
    | Resolved => Forall (decodes decodeAudioData) files
    | Rejected e =>
        exists pre bad post,
          files = pre ++ bad :: post /\ Forall (decodes decodeAudioData) pre /\
          decodeAudioData (file_bytes bad) = inl e
    end.
Proof.
  induction files as [|file rest IH]; intros i w; simpl; [constructor|].
  destruct (decodeAudioData (file_bytes file)) as [e|buf] eqn:E; simpl.
  - exists [], file, rest. repeat split; [constructor | exact E].
  - match goal with |- context [uploadLoop _ _ (S i) _ ?w1] =>
      specialize (IH (S i) w1);
      destruct (snd (uploadLoop decodeAudioData clock (S i) rest w1)) as [|e] end.
    + constructor; [exists buf; exact E | exact IH].
    + destruct IH as (pre & bad & post & -> & Hpre & Hbad).
      exists (file :: pre), bad, post. repeat split; [|exact Hbad].
      constructor; [exists buf; exact E | exact Hpre].
Qed.

Lemma snoc_lookup_old {A} (l : list A) (x y : A) (i : nat) :
  l !! i = Some y -> (l ++ [x]) !! i = Some y.
Proof. intros H. apply lookup_app_l_Some, H. Qed.

Lemma snoc_lookup_new {A} (l : list A) (x : A) : (l ++ [x]) !! length l = Some x.
Proof. apply list_lookup_middle. reflexivity. Qed.

(** One iteration for a decoded file keeps the nodes in step with the
    tracks. *)
Lemma uploadLoop_keeps_sync files :
  forall i w, nodes_in_sync w ->
    nodes_in_sync (fst (uploadLoop decodeAudioData clock i files w)).
Proof.
  induction files as [|file rest IH]; intros i w Hsync; simpl; [exact Hsync|].
  destruct (decodeAudioData (file_bytes file)) as [e|buf]; [exact Hsync|].
  apply IH. unfold nodes_in_sync in *. simpl.
  apply Forall_app. split.
  - eapply Forall_impl; [exact Hsync|]. intros t (Hmu & Hvo & Hpa & Hpi).
    unfold track_in_sync in *. simpl.
    destruct (players w !! player t) as [p|] eqn:Ep; [|discriminate].
    destruct (panners w !! panner t) as [pa|] eqn:Epa; [|discriminate].
    destruct (pitchShifts w !! pitchShift t) as [pi|] eqn:Epi; [|discriminate].
    rewrite (snoc_lookup_old _ _ _ _ Ep), (snoc_lookup_old _ _ _ _ Epa),
            (snoc_lookup_old _ _ _ _ Epi).
    auto.
  - constructor; [|constructor]. unfold track_in_sync. simpl.
    rewrite !snoc_lookup_new. auto.
Qed.

Lemma uploadLoop_new_tracks_fresh files :
  forall i w, exists new,
    tracks (fst (uploadLoop decodeAudioData clock i files w)) = tracks w ++ new /\
    Forall (fresh_track decodeAudioData) new.
Proof.
  induction files as [|file rest IH]; intros i w.
  - exists []. simpl. rewrite app_nil_r. split; [reflexivity | constructor].
  - simpl. destruct (decodeAudioData (file_bytes file)) as [e|buf] eqn:E.
    + exists []. simpl. rewrite app_nil_r. split; [reflexivity | constructor].
    + match goal with |- context [uploadLoop _ _ (S i) _ ?w1] =>
        destruct (IH (S i) w1) as (new & Htracks & Hfresh) end.
      simpl in Htracks. rewrite <- app_assoc in Htracks. simpl in Htracks.
      eexists (_ :: new). split; [exact Htracks|].
      constructor; [|exact Hfresh].
      unfold fresh_track. simpl. repeat split; try reflexivity. exact E.
Qed.

End UploadFacts.

(** X7. The promise of [handleFileUpload] resolves exactly when every file of
    the batch decodes; when it rejects, it rejects with the error of the
    first file that does not decode. *)
Theorem upload_outcome decode clock (files : list File) (w : World) :
  (snd (handleFileUpload decode clock (Some files) w) = Resolved
   <-> Forall (decodes decode) files) /\
  (forall e, snd (handleFileUpload decode clock (Some files) w) = Rejected e ->
     exists pre bad post,
       files = pre ++ bad :: post /\ Forall (decodes decode) pre /\
       decode (file_bytes bad) = inl e).
Proof.
  pose proof (uploadLoop_outcome decode clock files 0 w) as Hout. simpl.
  split; [split|].
  - intros Hres. rewrite Hres in Hout. exact Hout.
  - intros Hall. apply (upload_all_decoded decode clock files w Hall).
  - intros e Hrej. rewrite Hrej in Hout. exact Hout.
Qed.

(** X8. In a world whose nodes carry the stored values, they still do after
    an upload, whatever the files, the decoder and the clock: every new
    player, panner and pitch shifter starts with the values the new track
    stores. *)
Theorem upload_keeps_sync decode clock (files : option (list File)) (w : World) :
  nodes_in_sync w -> nodes_in_sync (fst (handleFileUpload decode clock files w)).
Proof.
  intros Hsync. destruct files as [fs|]; simpl; [|exact Hsync].
  apply uploadLoop_keeps_sync, Hsync.
Qed.

Lemma upload_keeps_sync_witness :
  nodes_in_sync (fst (handleFileUpload decodeNonEmpty (frozenClock 5)
                        (Some [fileC; fileBad]) twoTracks)).
Proof.
  exact (upload_keeps_sync decodeNonEmpty (frozenClock 5) (Some [fileC; fileBad])
           twoTracks twoTracks_in_sync).
Defined.

(** X9. An upload keeps the tracks that were there, in place, and appends
    the new ones; every new track is unmuted and not soloed, has volume, pan
    and pitch 0, is named after its file, and holds the buffer that the
    decoder gave for the bytes of that file. *)
Theorem upload_new_tracks decode clock (files : option (list File)) (w : World) :
  exists new,
    tracks (fst (handleFileUpload decode clock files w)) = tracks w ++ new /\
    Forall (fresh_track decode) new.
Proof.
  destruct files as [fs|]; simpl.
  - apply uploadLoop_new_tracks_fresh.
  - exists []. rewrite app_nil_r. split; [reflexivity | constructor].
Qed.

(** X10. Two track ids are equal exactly when they were made from the same
    clock reading and the same batch index: the printed id can be read back
    without ambiguity, also for a negative clock reading. *)
Theorem trackId_eq_iff (t t' : Z) (i j : nat) :
  trackId t i = trackId t' j <-> t = t' /\ i = j.
Proof.
  split.
  - apply trackId_inj.
  - intros [-> ->]. reflexivity.
Qed.

(** ** The component over sequences of events *)

Lemma run_invariant (P : App -> Prop) :
  (forall e a, P a -> P (step e a)) ->
  forall es a, P a -> P (run es a).
Proof.
  intros Hstep es. induction es as [|e es IH]; intros a Ha; [exact Ha|].
  simpl. apply IH, Hstep, Ha.
Qed.

Lemma ensureView_rest t w :
  players (ensureView t w) = players w /\ panners (ensureView t w) = panners w /\
  pitchShifts (ensureView t w) = pitchShifts w /\ console (ensureView t w) = console w.
Proof.
  destruct (wavesurferRefs w !! id t) eqn:E.
  - rewrite ensureView_bound; eauto.
  - rewrite ensureView_unbound by exact E. auto.
Qed.

Lemma ensureViews_rest ts w :
  players (ensureViews ts w) = players w /\ panners (ensureViews ts w) = panners w /\
  pitchShifts (ensureViews ts w) = pitchShifts w /\ console (ensureViews ts w) = console w.
Proof.
  revert w. induction ts as [|t ts IH]; intros w; simpl; [auto|].
  destruct (IH (ensureView t w)) as (-> & -> & -> & ->). apply ensureView_rest.
Qed.

(** The fixed part of the tracks under the handlers that map over the list. *)
Lemma fixedPart_fmap (f : Track -> Track) (ts : list Track) :
  (forall t, fixedPart (f t) = fixedPart t) ->
  fixedPart <$> (f <$> ts) = fixedPart <$> ts.
Proof.
  intros Hf. rewrite <- list_fmap_compose. apply list_fmap_ext.
  intros i t _. apply Hf.
Qed.

Lemma fixedPart_if (f : Track -> Track) trackId :
  (forall t, fixedPart (f t) = fixedPart t) ->
  forall t, fixedPart (if String.eqb (id t) trackId then f t else t) = fixedPart t.
Proof. intros Hf t. destruct (String.eqb (id t) trackId); [apply Hf | reflexivity]. Qed.

Lemma soloUpdater_fixedPart trackId ts :
  fixedPart <$> soloUpdater trackId ts = fixedPart <$> ts.
Proof.
  rewrite soloUpdater_unfold. unfold soloToggled.
  rewrite fixedPart_fmap by reflexivity.
  apply fixedPart_fmap, fixedPart_if. reflexivity.
Qed.

(** What a step does to the fixed parts: nothing, or it appends. *)
Lemma step_fixedPart e a :
  fixedPart <$> tracks (world a) `prefix_of` fixedPart <$> tracks (world (step e a)).
Proof.
  destruct e as [decode clock files| | trackId | trackId | trackId v | trackId v
                | trackId v | | seconds];
    cbn [step onWorld world togglePlayPause pollClock]; try reflexivity.
  - destruct files as [fs|]; [|reflexivity]. cbn [handleFileUpload].
    destruct (uploadLoop_new_tracks_fresh decode clock fs 0 (world a))
      as (new & -> & _).
    rewrite fmap_app. apply prefix_app_r. reflexivity.
  - rewrite tracks_handleMute, fixedPart_fmap; [reflexivity|].
    apply fixedPart_if. reflexivity.
  - unfold handleSolo. rewrite tracks_setTracks, soloUpdater_fixedPart. reflexivity.
  - rewrite tracks_handleVolumeChange, fixedPart_fmap; [reflexivity|].
    apply fixedPart_if. reflexivity.
  - rewrite tracks_handlePanChange, fixedPart_fmap; [reflexivity|].
    apply fixedPart_if. reflexivity.
  - rewrite tracks_handlePitchChange, fixedPart_fmap; [reflexivity|].
    apply fixedPart_if. reflexivity.
  - rewrite waveformEffect_unfold, ensureViews_tracks. reflexivity.
Qed.

Lemma nodes_allocated_same w w' :
  fixedPart <$> tracks w' = fixedPart <$> tracks w ->
  length (players w') = length (players w) ->
  length (panners w') = length (panners w) ->
  length (pitchShifts w') = length (pitchShifts w) ->
  nodes_allocated w -> nodes_allocated w'.
Proof.
  intros Hfixed Hpl Hpa Hpi (Lpl & Lpa & Lpi & Hloc).
  assert (Hlen : length (tracks w') = length (tracks w)).
  { rewrite <- (length_fmap fixedPart (tracks w')), Hfixed. apply length_fmap. }
  unfold nodes_allocated. rewrite Hpl, Hpa, Hpi, Hlen.
  split; [|split; [|split]]; try assumption. intros k t' Hk.
  assert (Hk' : (fixedPart <$> tracks w) !! k = Some (fixedPart t'))
    by (rewrite <- Hfixed, list_lookup_fmap, Hk; reflexivity).
  rewrite list_lookup_fmap in Hk'.
  destruct (tracks w !! k) as [t|] eqn:Et; [|discriminate].
  destruct (Hloc k t Et) as (Hk1 & Hk2 & Hk3).
  injection Hk' as _ _ _ _ Hp1 Hp2 Hp3.
  repeat split; congruence.
Qed.

Lemma handlers_fixedPart trackId v w :
  fixedPart <$> tracks (handleMute trackId w) = fixedPart <$> tracks w /\
  fixedPart <$> tracks (handleSolo trackId w) = fixedPart <$> tracks w /\
  fixedPart <$> tracks (handleVolumeChange trackId v w) = fixedPart <$> tracks w /\
  fixedPart <$> tracks (handlePanChange trackId v w) = fixedPart <$> tracks w /\
  fixedPart <$> tracks (handlePitchChange trackId v w) = fixedPart <$> tracks w.
Proof.
  rewrite tracks_handleMute, tracks_handleVolumeChange, tracks_handlePanChange,
          tracks_handlePitchChange.
  unfold handleSolo. rewrite tracks_setTracks, soloUpdater_fixedPart.
  repeat split; apply fixedPart_fmap, fixedPart_if; reflexivity.
Qed.

Lemma handlers_heap_lengths trackId v w :
  forall w', w' = handleMute trackId w \/ w' = handleSolo trackId w \/
             w' = handleVolumeChange trackId v w \/ w' = handlePanChange trackId v w \/
             w' = handlePitchChange trackId v w ->
    length (players w') = length (players w) /\
    length (panners w') = length (panners w) /\
    length (pitchShifts w') = length (pitchShifts w).
Proof.
  intros w' [-> | [-> | [-> | [-> | ->]]]];
    rewrite ?handleMute_fields, ?handleVolumeChange_fields, ?handlePanChange_fields,
            ?handlePitchChange_fields;
    cbn [handleSolo setTracks players panners pitchShifts];
    destruct (findTrack trackId (tracks w)); rewrite ?length_alter; auto.
Qed.

Lemma uploadLoop_nodes_allocated decode clock files :
  forall i w, nodes_allocated w ->
    nodes_allocated (fst (uploadLoop decode clock i files w)).
Proof.
  induction files as [|file rest IH]; intros i w Hw; simpl; [exact Hw|].
  destruct (decode (file_bytes file)) as [e|buf]; [exact Hw|].
  apply IH. destruct Hw as (Lpl & Lpa & Lpi & Hloc).
  unfold nodes_allocated. simpl. rewrite !length_app. simpl.
  split; [|split; [|split]]; try lia. intros k t Hk.
  apply lookup_app_Some in Hk as [Hk | [Hge Hk]]; [exact (Hloc k t Hk)|].
  destruct (k - length (tracks w)) as [|n] eqn:En; [|destruct n; discriminate].
  injection Hk as <-. simpl. lia.
Qed.

Lemma step_nodes_allocated e a :
  nodes_allocated (world a) -> nodes_allocated (world (step e a)).
Proof.
  intros Ha.
  destruct e as [decode clock files| | trackId | trackId | trackId v | trackId v
                | trackId v | | seconds];
    cbn [step onWorld world togglePlayPause pollClock]; try exact Ha.
  - destruct files as [fs|]; [|exact Ha]. apply uploadLoop_nodes_allocated, Ha.
  - destruct (handlers_heap_lengths trackId 0%Q (world a) _ (or_introl eq_refl))
      as (H1 & H2 & H3).
    apply (nodes_allocated_same (world a)); try assumption.
    apply (handlers_fixedPart trackId 0%Q).
  - destruct (handlers_heap_lengths trackId 0%Q (world a) _ (or_intror (or_introl eq_refl)))
      as (H1 & H2 & H3).
    apply (nodes_allocated_same (world a)); try assumption.
    apply (handlers_fixedPart trackId 0%Q).
  - destruct (handlers_heap_lengths trackId v (world a) _
                (or_intror (or_intror (or_introl eq_refl)))) as (H1 & H2 & H3).
    apply (nodes_allocated_same (world a)); try assumption.
    apply (handlers_fixedPart trackId v).
  - destruct (handlers_heap_lengths trackId v (world a) _
                (or_intror (or_intror (or_intror (or_introl eq_refl))))) as (H1 & H2 & H3).
    apply (nodes_allocated_same (world a)); try assumption.
    apply (handlers_fixedPart trackId v).
  - destruct (handlers_heap_lengths trackId v (world a) _
                (or_intror (or_intror (or_intror (or_intror eq_refl))))) as (H1 & H2 & H3).
    apply (nodes_allocated_same (world a)); try assumption.
    apply (handlers_fixedPart trackId v).
  - destruct (ensureViews_rest (tracks (world a)) (world a)) as (H1 & H2 & H3 & _).
    rewrite waveformEffect_unfold.
    apply (nodes_allocated_same (world a)); rewrite ?H1, ?H2, ?H3, ?ensureViews_tracks;
      try reflexivity; exact Ha.
Qed.

Lemma nodes_allocated_unique w :
  nodes_allocated w ->
  unique_on player (tracks w) /\ unique_on panner (tracks w) /\
  unique_on pitchShift (tracks w).
Proof.
  intros (_ & _ & _ & Hloc).
  repeat split; intros i j t1 t2 Hi Hj Heq;
    destruct (Hloc i t1 Hi) as (? & ? & ?), (Hloc j t2 Hj) as (? & ? & ?); congruence.
Qed.

(** X11. After any sequence of events on the mounted component, the nodes
    are allocated in step with the tracks: there are as many players, panners
    and pitch shifters as tracks (a file that fails to decode leaves no node
    behind), the track at position [k] holds the nodes at location [k], and so
    no two tracks share a player, a panner or a pitch shifter. *)
Theorem reachable_nodes_allocated (es : list Event) :
  nodes_allocated (world (run es mountedApp)) /\
  unique_on player (tracks (world (run es mountedApp))) /\
  unique_on panner (tracks (world (run es mountedApp))) /\
  unique_on pitchShift (tracks (world (run es mountedApp))).
Proof.
  assert (Halloc : nodes_allocated (world (run es mountedApp))).
  { apply (run_invariant (fun a => nodes_allocated (world a))).
    - intros e a. apply step_nodes_allocated.
    - split; [|split; [|split]]; try reflexivity.
      intros k t Hk. destruct k; discriminate Hk. }
  split; [exact Halloc | apply nodes_allocated_unique, Halloc].
Qed.

(** X12. No event removes, reorders or replaces a track: after any sequence
    of events, the tracks that were there are still the first tracks of the
    list, in the same order, each with the id, name, audio, file and nodes it
    had. *)
Theorem tracks_only_grow (es : list Event) (a : App) :
  fixedPart <$> tracks (world a) `prefix_of` fixedPart <$> tracks (world (run es a)).
Proof.
  revert a. induction es as [|e es IH]; intros a; [reflexivity|].
  simpl. etransitivity; [apply (step_fixedPart e a) | apply IH].
Qed.

(** ** Play, pause and the players *)

Lemma transportStarted_app running cs cs' :
  transportStarted running (cs ++ cs')
  = transportStarted (transportStarted running cs) cs'.
Proof.
  revert running. induction cs as [|c cs IH]; intros running; [reflexivity|].
  destruct c; simpl; apply IH.
Qed.

Lemma transportStarted_player_starts running (ts : list Track) :
  transportStarted running ((fun track => Player_start (player track)) <$> ts) = running.
Proof. induction ts as [|t ts IH]; [reflexivity|]. rewrite fmap_cons. simpl. exact IH. Qed.

Lemma step_isPlaying e a :
  isPlaying a = transportStarted false (calls a) ->
  isPlaying (step e a) = transportStarted false (calls (step e a)).
Proof.
  intros Ha.
  destruct e; cbn [step onWorld togglePlayPause pollClock isPlaying calls];
    try exact Ha.
  destruct (isPlaying a); rewrite transportStarted_app; simpl;
    [reflexivity | symmetry; apply transportStarted_player_starts].
Qed.

(** X13. After any sequence of events on the mounted component, [isPlaying]
    is true exactly when the last call made on the transport was
    [Transport.start()]: the flag and the commands sent to the transport never
    drift apart, and start and pause are sent alternately. *)
Theorem isPlaying_mirrors_transport (es : list Event) :
  isPlaying (run es mountedApp) = transportStarted false (calls (run es mountedApp)).
Proof.
  apply (run_invariant (fun a => isPlaying a = transportStarted false (calls a))).
  - intros e a. apply step_isPlaying.
  - reflexivity.
Qed.

Lemma step_players_grow e a :
  nodes_allocated (world a) ->
  length (players (world a)) <= length (players (world (step e a))).
Proof.
  intros Ha. pose proof (step_nodes_allocated e a Ha) as (Lpl' & _).
  destruct Ha as (Lpl & _). rewrite Lpl, Lpl'.
  pose proof (prefix_length _ _ (step_fixedPart e a)) as Hlen.
  rewrite !length_fmap in Hlen. exact Hlen.
Qed.

Lemma step_player_starts e a :
  nodes_allocated (world a) ->
  (forall l, Player_start l ∈ calls a -> l < length (players (world a))) ->
  forall l, Player_start l ∈ calls (step e a) -> l < length (players (world (step e a))).
Proof.
  intros Halloc Ha l Hl.
  pose proof (step_players_grow e a Halloc) as Hgrow.
  destruct e; cbn [step onWorld togglePlayPause pollClock calls world] in *;
    try (specialize (Ha l Hl); lia).
  destruct (isPlaying a); apply elem_of_app in Hl as [Hl | Hl];
    try (specialize (Ha l Hl); lia).
  - apply list_elem_of_singleton in Hl. discriminate Hl.
  - apply elem_of_cons in Hl as [Hl | Hl]; [discriminate Hl|].
    apply list_elem_of_fmap in Hl as (t & [= ->] & Ht).
    apply list_elem_of_lookup in Ht as [k Hk].
    destruct Halloc as (Lpl & _ & _ & Hloc).
    destruct (Hloc k t Hk) as (-> & _). rewrite Lpl.
    apply lookup_lt_Some in Hk. exact Hk.
Qed.

(** X14. After any sequence of events on the mounted component, every
    [player.start()] that was called went to a player that exists: play
    starts the players of the tracks of the list, one call per track, and no
    other. *)
Theorem player_starts_reach_players (es : list Event) (l : nat) :
  Player_start l ∈ calls (run es mountedApp) ->
  is_Some (players (world (run es mountedApp)) !! l).
Proof.
  intros Hl. apply lookup_lt_is_Some. revert l Hl.
  apply (run_invariant
           (fun a => nodes_allocated (world a) /\
                     forall l, Player_start l ∈ calls a -> l < length (players (world a)))
           (fun e a '(conj H1 H2) =>
              conj (step_nodes_allocated e a H1) (step_player_starts e a H1 H2))
           es mountedApp).
  split.
  - split; [|split; [|split]]; try reflexivity.
    intros k t Hk. destruct k; discriminate Hk.
  - intros l Hl. apply list_elem_of_singleton in Hl. discriminate Hl.
Qed.

Lemma player_starts_reach_players_witness :
  is_Some (players (world (run [FileUpload decodeNonEmpty (frozenClock 0) (Some [fileA]);
                                PlayPause] mountedApp)) !! 0).
Proof.
  apply (player_starts_reach_players
           [FileUpload decodeNonEmpty (frozenClock 0) (Some [fileA]); PlayPause] 0).
  apply list_elem_of_In. vm_compute. auto.
Defined.

(** ** More on the waveform views *)

Lemma ids_of_fixedPart (ts : list Track) :
  id <$> ts = (fun p => fst (fst (fst (fst p)))) <$> (fixedPart <$> ts).
Proof. rewrite <- list_fmap_compose. reflexivity. Qed.

Lemma handlers_keep_ids trackId v w :
  id <$> tracks (handleMute trackId w) = id <$> tracks w /\
  id <$> tracks (handleSolo trackId w) = id <$> tracks w /\
  id <$> tracks (handleVolumeChange trackId v w) = id <$> tracks w /\
  id <$> tracks (handlePanChange trackId v w) = id <$> tracks w /\
  id <$> tracks (handlePitchChange trackId v w) = id <$> tracks w.
Proof.
  rewrite !ids_of_fixedPart.
  destruct (handlers_fixedPart trackId v w) as (-> & -> & -> & -> & ->). auto.
Qed.

Lemma handlers_keep_views trackId v w :
  forall w', w' = handleMute trackId w \/ w' = handleSolo trackId w \/
             w' = handleVolumeChange trackId v w \/ w' = handlePanChange trackId v w \/
             w' = handlePitchChange trackId v w ->
    wavesurferRefs w' = wavesurferRefs w /\ wavesurfers w' = wavesurfers w.
Proof.
  intros w' [-> | [-> | [-> | [-> | ->]]]];
    rewrite ?handleMute_fields, ?handleVolumeChange_fields, ?handlePanChange_fields,
            ?handlePitchChange_fields; auto.
Qed.

(** When every track of the list has a view, the effect changes nothing. *)
Lemma waveformEffect_all_bound w :
  (forall k, k ∈ id <$> tracks w -> is_Some (wavesurferRefs w !! k)) ->
  waveformEffect w = w.
Proof.
  intros Hall. rewrite waveformEffect_unfold. apply ensureViews_all_bound.
  intros t Ht. apply Hall, list_elem_of_fmap. eauto.
Qed.

Lemma waveformEffect_binds_ids w k :
  k ∈ id <$> tracks w -> is_Some (wavesurferRefs (waveformEffect w) !! k).
Proof.
  intros Hk. apply list_elem_of_fmap in Hk as (t & -> & Ht).
  rewrite waveformEffect_unfold. apply ensureViews_binds, Ht.
Qed.

Lemma waveformEffect_after w w' :
  id <$> tracks w' = id <$> tracks (waveformEffect w) ->
  wavesurferRefs w' = wavesurferRefs (waveformEffect w) ->
  waveformEffect w' = w'.
Proof.
  intros Hids Hrefs. apply waveformEffect_all_bound. intros k Hk.
  rewrite Hids, waveformEffect_unfold, ensureViews_tracks in Hk.
  rewrite Hrefs. apply waveformEffect_binds_ids, Hk.
Qed.

(** X16. Every control handler gives [setTracks] a new list, so the waveform
    effect runs again after it; that run creates no view, loads no blob and
    changes no reference: once the effect has run, a mute, solo, volume, pan
    or pitch change followed by the effect is the change alone. *)
Theorem effect_after_control_is_noop (trackId : string) (v : Q) (w : World) :
  waveformEffect (handleMute trackId (waveformEffect w))
  = handleMute trackId (waveformEffect w) /\
  waveformEffect (handleSolo trackId (waveformEffect w))
  = handleSolo trackId (waveformEffect w) /\
  waveformEffect (handleVolumeChange trackId v (waveformEffect w))
  = handleVolumeChange trackId v (waveformEffect w) /\
  waveformEffect (handlePanChange trackId v (waveformEffect w))
  = handlePanChange trackId v (waveformEffect w) /\
  waveformEffect (handlePitchChange trackId v (waveformEffect w))
  = handlePitchChange trackId v (waveformEffect w).
Proof.
  destruct (handlers_keep_ids trackId v (waveformEffect w)) as (I1 & I2 & I3 & I4 & I5).
  pose proof (handlers_keep_views trackId v (waveformEffect w)) as Hviews.
  repeat split; apply (waveformEffect_after w); try assumption;
    apply Hviews; tauto.
Qed.

Lemma ensureView_grows t w :
  wavesurfers w `prefix_of` wavesurfers (ensureView t w) /\
  wavesurferRefs w ⊆ wavesurferRefs (ensureView t w).
Proof.
  destruct (wavesurferRefs w !! id t) eqn:E.
  - rewrite ensureView_bound by eauto. split; reflexivity.
  - rewrite ensureView_unbound by exact E. simpl. split.
    + apply prefix_app_r. reflexivity.
    + apply insert_subseteq, E.
Qed.

Lemma ensureViews_grows ts w :
  wavesurfers w `prefix_of` wavesurfers (ensureViews ts w) /\
  wavesurferRefs w ⊆ wavesurferRefs (ensureViews ts w).
Proof.
  revert w. induction ts as [|t ts IH]; intros w; simpl; [split; reflexivity|].
  destruct (ensureView_grows t w) as [Hv Hr], (IH (ensureView t w)) as [Hv' Hr'].
  split; etransitivity; eassumption.
Qed.

(** X17. The waveform effect only adds: the views that exist stay as they
    are, in place, with what they have loaded, and every reference that was
    recorded still leads to the same view. *)
Theorem waveformEffect_only_adds (w : World) :
  wavesurfers w `prefix_of` wavesurfers (waveformEffect w) /\
  wavesurferRefs w ⊆ wavesurferRefs (waveformEffect w).
Proof. rewrite waveformEffect_unfold. apply ensureViews_grows. Qed.

Lemma ensureView_refs_point t w :
  refs_point_to_views w -> refs_point_to_views (ensureView t w).
Proof.
  intros Hw. destruct (wavesurferRefs w !! id t) eqn:E.
  - rewrite ensureView_bound; eauto.
  - rewrite ensureView_unbound by exact E. intros k l. simpl.
    destruct (decide (id t = k)) as [<-|Hne].
    + rewrite lookup_insert_eq. intros [= <-]. exists (blob t).
      apply snoc_lookup_new.
    + rewrite lookup_insert_ne by exact Hne. intros Hk.
      destruct (Hw k l Hk) as [b Hb]. exists b. apply snoc_lookup_old, Hb.
Qed.

Lemma ensureView_refs_belong t w :
  id t ∈ id <$> tracks w ->
  refs_belong_to_tracks w -> refs_belong_to_tracks (ensureView t w).
Proof.
  intros Ht Hw. destruct (wavesurferRefs w !! id t) eqn:E.
  - rewrite ensureView_bound; eauto.
  - rewrite ensureView_unbound by exact E. intros k. simpl.
    destruct (decide (id t = k)) as [<-|Hne]; [intros _; exact Ht|].
    rewrite lookup_insert_ne by exact Hne. apply Hw.
Qed.

Lemma ensureViews_refs_point ts w :
  refs_point_to_views w -> refs_point_to_views (ensureViews ts w).
Proof.
  revert w. induction ts as [|t ts IH]; intros w Hw; simpl; [exact Hw|].
  apply IH, ensureView_refs_point, Hw.
Qed.

Lemma ensureViews_refs_belong ts w :
  (forall t, t ∈ ts -> id t ∈ id <$> tracks w) ->
  refs_belong_to_tracks w -> refs_belong_to_tracks (ensureViews ts w).
Proof.
  revert w. induction ts as [|t ts IH]; intros w Hts Hw; simpl; [exact Hw|].
  apply IH.
  - intros t' Ht'. rewrite ensureView_tracks. apply Hts. right. exact Ht'.
  - apply ensureView_refs_belong; [apply Hts; left | exact Hw].
Qed.

(** The three facts about the views, kept by a step that does not reach the
    views and keeps or extends the list of ids. *)
Lemma views_facts_same w w' :
  wavesurferRefs w' = wavesurferRefs w -> wavesurfers w' = wavesurfers w ->
  fixedPart <$> tracks w `prefix_of` fixedPart <$> tracks w' ->
  views_match_refs w /\ refs_point_to_views w /\ refs_belong_to_tracks w ->
  views_match_refs w' /\ refs_point_to_views w' /\ refs_belong_to_tracks w'.
Proof.
  intros Hrefs Hviews Hpre (Hm & Hp & Hb). split; [|split].
  - apply (views_match_refs_same w); assumption.
  - intros k l. rewrite Hrefs, Hviews. apply Hp.
  - intros k. rewrite Hrefs. intros Hk. specialize (Hb k Hk).
    rewrite ids_of_fixedPart in *. destruct Hpre as [more ->].
    rewrite fmap_app. apply elem_of_app. left. exact Hb.
Qed.

Lemma step_views_facts e a :
  views_match_refs (world a) /\ refs_point_to_views (world a) /\
  refs_belong_to_tracks (world a) ->
  views_match_refs (world (step e a)) /\ refs_point_to_views (world (step e a)) /\
  refs_belong_to_tracks (world (step e a)).
Proof.
  intros Ha. pose proof (step_fixedPart e a) as Hpre.
  destruct e as [decode clock files| | trackId | trackId | trackId v | trackId v
                | trackId v | | seconds];
    cbn [step onWorld world togglePlayPause pollClock] in *; try exact Ha.
  - apply (views_facts_same (world a)); try assumption.
    + destruct files as [fs|]; [|reflexivity]. apply uploadLoop_keeps_views.
    + destruct files as [fs|]; [|reflexivity]. apply uploadLoop_keeps_views.
  - apply (views_facts_same (world a)); try assumption;
      apply (handlers_keep_views trackId 0%Q (world a)); tauto.
  - apply (views_facts_same (world a)); try assumption;
      apply (handlers_keep_views trackId 0%Q (world a)); tauto.
  - apply (views_facts_same (world a)); try assumption;
      apply (handlers_keep_views trackId v (world a)); tauto.
  - apply (views_facts_same (world a)); try assumption;
      apply (handlers_keep_views trackId v (world a)); tauto.
  - apply (views_facts_same (world a)); try assumption;
      apply (handlers_keep_views trackId v (world a)); tauto.
  - destruct Ha as (Hm & Hp & Hb). rewrite waveformEffect_unfold. split; [|split].
    + apply ensureViews_keeps_match, Hm.
    + apply ensureViews_refs_point, Hp.
    + apply ensureViews_refs_belong; [|exact Hb].
      intros t Ht. apply list_elem_of_fmap. eauto.
Qed.

(** X15. After any sequence of events on the mounted component, whatever the
    order of uploads, control changes and runs of the effect: no track id has
    two views, and it has one exactly when [wavesurferRefs] has an entry for
    it; every entry of [wavesurferRefs] leads to a view mounted at
    [#waveform-<id>] with a blob loaded; and every entry belongs to a track of
    the list. *)
Theorem reachable_views (es : list Event) :
  views_match_refs (world (run es mountedApp)) /\
  refs_point_to_views (world (run es mountedApp)) /\
  refs_belong_to_tracks (world (run es mountedApp)).
Proof.
  apply (run_invariant
           (fun a => views_match_refs (world a) /\ refs_point_to_views (world a) /\
                     refs_belong_to_tracks (world a))).
  - intros e a. apply step_views_facts.
  - split; [apply initialWorld_views_match|]. split.
    + intros k l Hk.
      cbn [mountedApp startEffect initialApp world initialWorld wavesurferRefs] in Hk.
      rewrite lookup_empty in Hk. discriminate Hk.
    + intros k [l Hk].
      cbn [mountedApp startEffect initialApp world initialWorld wavesurferRefs] in Hk.
      rewrite lookup_empty in Hk. discriminate Hk.
Qed.

(** ** Nodes and views of tracks with unique ids *)

Lemma NoDup_ids_unique (ts : list Track) :
  NoDup (id <$> ts) -> unique_on id ts.
Proof.
  intros Hnd i j t1 t2 Hi Hj Heq.
  apply (NoDup_lookup (id <$> ts) i j (id t1) Hnd).
  - rewrite list_lookup_fmap, Hi. reflexivity.
  - rewrite list_lookup_fmap, Hj, Heq. reflexivity.
Qed.








Lemma member_fixedPart (ts ts' : list Track) (t : Track) :
  fixedPart <$> ts `prefix_of` fixedPart <$> ts' ->
  t ∈ ts -> exists t', t' ∈ ts' /\ id t' = id t /\ blob t' = blob t.
Proof.
  intros [more Hpre] Ht.
  assert (Hin : fixedPart t ∈ fixedPart <$> ts').
  { rewrite Hpre. apply elem_of_app. left. apply list_elem_of_fmap. eauto. }
  apply list_elem_of_fmap in Hin as (t' & Heq & Ht').
  exists t'. injection Heq as Hid _ _ Hblob _ _ _. auto.
Qed.

Lemma refs_show_same w w' :
  wavesurferRefs w' = wavesurferRefs w -> wavesurfers w' = wavesurfers w ->
  fixedPart <$> tracks w `prefix_of` fixedPart <$> tracks w' ->
  refs_show_tracks w -> refs_show_tracks w'.
Proof.
  intros Hrefs Hviews Hpre Hw k l. rewrite Hrefs, Hviews. intros Hk.
  destruct (Hw k l Hk) as (t & Ht & Hid & Hview).
  destruct (member_fixedPart _ _ t Hpre Ht) as (t' & Ht' & Hid' & Hblob').
  exists t'. rewrite Hblob'. repeat split; [exact Ht' | congruence | exact Hview].
Qed.

Lemma ensureView_refs_show t w :
  t ∈ tracks w -> refs_show_tracks w -> refs_show_tracks (ensureView t w).
Proof.
  intros Ht Hw. destruct (wavesurferRefs w !! id t) eqn:E.
  - rewrite ensureView_bound; eauto.
  - rewrite ensureView_unbound by exact E. intros k l. simpl.
    destruct (decide (id t = k)) as [<-|Hne].
    + rewrite lookup_insert_eq. intros [= <-]. exists t.
      repeat split; [exact Ht | apply snoc_lookup_new].
    + rewrite lookup_insert_ne by exact Hne. intros Hk.
      destruct (Hw k l Hk) as (t' & Ht' & Hid' & Hview).
      exists t'. repeat split; [exact Ht' | exact Hid' | apply snoc_lookup_old, Hview].
Qed.

Lemma ensureViews_refs_show ts w :
  (forall t, t ∈ ts -> t ∈ tracks w) ->
  refs_show_tracks w -> refs_show_tracks (ensureViews ts w).
Proof.
  revert w. induction ts as [|t ts IH]; intros w Hts Hw; simpl; [exact Hw|].
  apply IH.
  - intros t' Ht'. rewrite ensureView_tracks. apply Hts. right. exact Ht'.
  - apply ensureView_refs_show; [apply Hts; left | exact Hw].
Qed.

Lemma step_refs_show e a :
  refs_show_tracks (world a) -> refs_show_tracks (world (step e a)).
Proof.
  intros Ha. pose proof (step_fixedPart e a) as Hpre.
  destruct e as [decode clock files| | trackId | trackId | trackId v | trackId v
                | trackId v | | seconds];
    cbn [step onWorld world togglePlayPause pollClock] in *; try exact Ha.
  - apply (refs_show_same (world a)); try assumption;
      (destruct files as [fs|]; [|reflexivity]); apply uploadLoop_keeps_views.
  - apply (refs_show_same (world a)); try assumption;
      apply (handlers_keep_views trackId 0%Q (world a)); tauto.
  - apply (refs_show_same (world a)); try assumption;
      apply (handlers_keep_views trackId 0%Q (world a)); tauto.
  - apply (refs_show_same (world a)); try assumption;
      apply (handlers_keep_views trackId v (world a)); tauto.
  - apply (refs_show_same (world a)); try assumption;
      apply (handlers_keep_views trackId v (world a)); tauto.
  - apply (refs_show_same (world a)); try assumption;
      apply (handlers_keep_views trackId v (world a)); tauto.
  - rewrite waveformEffect_unfold. apply ensureViews_refs_show; auto.
Qed.

Lemma run_snoc es e a : run (es ++ [e]) a = step e (run es a).
Proof. unfold run. rewrite foldl_app. reflexivity. Qed.

(** X19. Once the effect has run after any sequence of events, and the track
    ids are distinct, every track of the list has its view: [wavesurferRefs]
    has an entry under the track's id, and it leads to a view mounted at
    [#waveform-<id>] that has loaded this track's own file. *)
Theorem views_show_their_track (es : list Event) (t : Track) :
  NoDup (id <$> tracks (world (run (es ++ [TracksEffect]) mountedApp))) ->
  t ∈ tracks (world (run (es ++ [TracksEffect]) mountedApp)) ->
  exists l,
    wavesurferRefs (world (run (es ++ [TracksEffect]) mountedApp)) !! id t = Some l /\
    wavesurfers (world (run (es ++ [TracksEffect]) mountedApp)) !! l
    = Some (mkWaveSurfer (mountPoint (id t)) (Some (blob t))).
Proof.
  intros Hnd Ht.
  assert (Hshow : refs_show_tracks (world (run (es ++ [TracksEffect]) mountedApp))).
  { apply (run_invariant (fun a => refs_show_tracks (world a))).
    - intros e a. apply step_refs_show.
    - intros k l Hk.
      cbn [mountedApp startEffect initialApp world initialWorld wavesurferRefs] in Hk.
      rewrite lookup_empty in Hk. discriminate Hk. }
  assert (Hbound : is_Some (wavesurferRefs
                     (world (run (es ++ [TracksEffect]) mountedApp)) !! id t)).
  { rewrite run_snoc in *. cbn [step onWorld world] in *.
    apply waveformEffect_binds_ids.
    rewrite waveformEffect_unfold, ensureViews_tracks in Ht.
    apply list_elem_of_fmap. eauto. }
  destruct Hbound as [l Hl]. exists l. split; [exact Hl|].
  destruct (Hshow (id t) l Hl) as (t' & Ht' & Hid' & Hview).
  apply list_elem_of_lookup in Ht as [i Hi].
  apply list_elem_of_lookup in Ht' as [j Hj].
  assert (i = j) by (apply (NoDup_ids_unique _ Hnd i j t t' Hi Hj); congruence).
  subst j. assert (t' = t) by congruence. subst t'. exact Hview.
Qed.

Lemma views_show_their_track_witness :
  exists l,
    wavesurferRefs (world (run ([FileUpload decodeNonEmpty (frozenClock 7)
                                   (Some [fileA; fileB]); Solo "track-7-0"]
                                ++ [TracksEffect]) mountedApp))
      !! "track-7-1" = Some l /\
    wavesurfers (world (run ([FileUpload decodeNonEmpty (frozenClock 7)
                                (Some [fileA; fileB]); Solo "track-7-0"]
                             ++ [TracksEffect]) mountedApp)) !! l
    = Some (mkWaveSurfer (mountPoint "track-7-1") (Some fileB)).
Proof.
  apply (views_show_their_track
           [FileUpload decodeNonEmpty (frozenClock 7) (Some [fileA; fileB]);
            Solo "track-7-0"]
           (mkTrack "track-7-1" "b.wav" [0%Q] 1 1 1 true false 0 0 0 fileB)).
  - apply (bool_decide_unpack _). vm_compute. exact I.
  - apply list_elem_of_In. vm_compute. auto.
Defined.
